(** * Closest pair of points by divide and conquer

    A shallow embedding of [closest_points.cpp] and the properties of its
    algorithmic core: the distance primitive, the brute-force solver, the
    strip solver, the recursive partitioner and the top-level driver.

    Numbers.  The program computes on C++ [double]s.  The embedding reads
    them as exact real numbers: a coordinate is a real (the input contract
    rules out NaN and infinite coordinates), and a distance bound is a real
    or the value [+infinity] that the program uses as its sentinel.  Rounding,
    overflow and underflow are not modelled. *)

From Stdlib Require Import Reals Lra Lia List Arith Bool Permutation Sorted.
Import ListNotations.
Local Open Scope R_scope.

(** ** Numbers *)

(** A [double] holding a distance bound: a real, or [+infinity]. *)
Inductive double : Type :=
| Fin (r : R)
| PInf.

(** Comparisons of coordinates, as booleans. *)
Definition Rltb (u v : R) : bool := if Rlt_dec u v then true else false.
Definition Rleb (u v : R) : bool := if Rle_dec u v then true else false.
Definition Reqb (u v : R) : bool := if Req_dec_T u v then true else false.

(** [u < v] on bounds: nothing is below a real but a smaller real, and
    every real is below [+infinity]. *)
Definition dlt (u v : double) : bool :=
  match u, v with
  | Fin r, Fin s => Rltb r s
  | Fin _, PInf => true
  | PInf, _ => false
  end.

(** [u >= v] on bounds. *)
Definition dge (u v : double) : bool :=
  match u, v with
  | Fin r, Fin s => Rleb s r
  | Fin _, PInf => false
  | PInf, _ => true
  end.

(** ** Data model *)

Module Point.
Record t : Type := mk { x : R; y : R }.
End Point.
Abbreviation Point := Point.t.

Module ClosestResult.
Record t : Type := mk { a : Point; b : Point; dist : double }.
End ClosestResult.
Abbreviation ClosestResult := ClosestResult.t.

(** Euclidean distance between two points. *)
Definition dist (p q : Point) : R :=
  let dx := Point.x p - Point.x q in
  let dy := Point.y p - Point.y q in
  sqrt (dx * dx + dy * dy).

(** The placeholder result [{{0,0},{0,0}, bound}] that both solvers start
    from. *)
Definition sentinel (bound : double) : ClosestResult :=
  ClosestResult.mk (Point.mk 0 0) (Point.mk 0 0) bound.

(** ** Brute force *)

(** The loop body [if (d < best.dist) best = {pi, pj, d}]. *)
Definition improve (pi pj : Point) (best : ClosestResult) : ClosestResult :=
  let d := dist pi pj in
  if dlt (Fin d) (ClosestResult.dist best)
  then ClosestResult.mk pi pj (Fin d)
  else best.

(** Inner loop of [bruteForce]: [pi] is [pts[i]], [rest] holds
    [pts[i+1 .. n)]. *)
Fixpoint bruteForce_inner (pi : Point) (rest : list Point)
  (best : ClosestResult) : ClosestResult :=
  match rest with
  | [] => best
  | pj :: rest' => bruteForce_inner pi rest' (improve pi pj best)
  end.

(** Outer loop of [bruteForce] over [pts[i .. n)]. *)
Fixpoint bruteForce_outer (pts : list Point) (best : ClosestResult)
  : ClosestResult :=
  match pts with
  | [] => best
  | pi :: rest => bruteForce_outer rest (bruteForce_inner pi rest best)
  end.

Definition bruteForce (pts : list Point) : ClosestResult :=
  bruteForce_outer pts (sentinel PInf).

(** ** Strip solver *)

(** Inner loop of [closestInStrip], which leaves at the first [strip[j]]
    whose y-distance from [strip[i]] reaches the current bound. *)
Fixpoint closestInStrip_inner (pi : Point) (rest : list Point)
  (best : ClosestResult) : ClosestResult :=
  match rest with
  | [] => best
  | pj :: rest' =>
      if dge (Fin (Point.y pj - Point.y pi)) (ClosestResult.dist best)
      then best
      else closestInStrip_inner pi rest' (improve pi pj best)
  end.

Fixpoint closestInStrip_outer (strip : list Point) (best : ClosestResult)
  : ClosestResult :=
  match strip with
  | [] => best
  | pi :: rest =>
      closestInStrip_outer rest (closestInStrip_inner pi rest best)
  end.

Definition closestInStrip (strip : list Point) (delta : double)
  : ClosestResult :=
  closestInStrip_outer strip (sentinel delta).

(** ** Recursive partitioner *)

(** The outer test of the partitioning loop:
    [p.x < midPoint.x || (p.x == midPoint.x && p.y <= midPoint.y)]. *)
Definition left_test (midPoint p : Point) : bool :=
  Rltb (Point.x p) (Point.x midPoint)
  || (Reqb (Point.x p) (Point.x midPoint)
      && Rleb (Point.y p) (Point.y midPoint)).

Definition empty (l : list Point) : bool :=
  match l with [] => true | _ :: _ => false end.

(** The loop that splits [Py] into [YL] and [YR].  [i] is the index of the
    next element, [YL] and [YR] are the vectors built so far, and
    [differs i] is the outcome of the address test [&p != &midPoint] for
    the element at index [i]. *)
Fixpoint partition_loop (XL : list Point) (midPoint : Point)
  (differs : nat -> bool) (i : nat) (Py YL YR : list Point)
  : list Point * list Point :=
  match Py with
  | [] => (YL, YR)
  | p :: rest =>
      let next := partition_loop XL midPoint differs (S i) rest in
      if left_test midPoint p then
        if negb (empty XL)
           && (Rltb (Point.x p) (Point.x midPoint) || differs i)
        then next (YL ++ [p]) YR
        else if Rltb (Point.x p) (Point.x midPoint)
        then next (YL ++ [p]) YR
        else if Rleb (Point.x p) (Point.x midPoint)
        then next (YL ++ [p]) YR
        else next YL (YR ++ [p])
      else next YL (YR ++ [p])
  end.

(** [midPoint] is a local copy of [Px[mid]], an object of its own: no
    element of [Py] has its address. *)
Definition local_copy : nat -> bool := fun _ => true.

Definition partitionPy (XL : list Point) (midPoint : Point)
  (Py : list Point) : list Point * list Point :=
  partition_loop XL midPoint local_copy 0 Py [] [].

(** The strip: the points of [Py] with [fabs(p.x - midPoint.x) < delta]. *)
Definition in_strip (midPoint : Point) (delta : double) (p : Point) : bool :=
  dlt (Fin (Rabs (Point.x p - Point.x midPoint))) delta.

(** [closestRec], with the recursion depth bounded by [fuel]. *)
Fixpoint closestRec_fuel (fuel : nat) (Px Py : list Point)
  : option ClosestResult :=
  match fuel with
  | O => None
  | S fuel' =>
      let n := length Px in
      if (n <=? 3)%nat then Some (bruteForce Px)
      else
        let mid := (n / 2)%nat in
        let midPoint := nth mid Px (Point.mk 0 0) in
        let XL := firstn mid Px in
        let XR := skipn mid Px in
        let (YL, YR) := partitionPy XL midPoint Py in
        match closestRec_fuel fuel' XL YL, closestRec_fuel fuel' XR YR with
        | Some leftBest, Some rightBest =>
            let best :=
              if dlt (ClosestResult.dist leftBest)
                     (ClosestResult.dist rightBest)
              then leftBest else rightBest in
            let delta := ClosestResult.dist best in
            let strip := filter (in_strip midPoint delta) Py in
            let stripBest := closestInStrip strip delta in
            Some (if dlt (ClosestResult.dist stripBest)
                         (ClosestResult.dist best)
                  then stripBest else best)
        | _, _ => None
        end
  end.

(** Every call on [n] points is given [n + 1] levels, which is more than
    the halving ever uses. *)
Definition closestRec (Px Py : list Point) : option ClosestResult :=
  closestRec_fuel (S (length Px)) Px Py.

(** ** Top-level driver *)

(** The two comparators handed to [std::sort]. *)
Definition by_x_then_y (p q : Point) : bool :=
  if negb (Reqb (Point.x p) (Point.x q))
  then Rltb (Point.x p) (Point.x q)
  else Rltb (Point.y p) (Point.y q).

Definition by_y_then_x (p q : Point) : bool :=
  if negb (Reqb (Point.y p) (Point.y q))
  then Rltb (Point.y p) (Point.y q)
  else Rltb (Point.x p) (Point.x q).

(** [std::sort].  Both comparators are strict total orders on point
    values, so the sorted vector is the same whatever the sorting
    algorithm: insertion sort stands for it. *)
Fixpoint insert (less : Point -> Point -> bool) (p : Point)
  (l : list Point) : list Point :=
  match l with
  | [] => [p]
  | q :: l' => if less p q then p :: l else q :: insert less p l'
  end.

Definition sort (less : Point -> Point -> bool) (l : list Point)
  : list Point :=
  fold_right (insert less) [] l.

Definition closestPair (pts : list Point) : option ClosestResult :=
  if (length pts <? 2)%nat then Some (sentinel PInf)
  else
    let Px := sort by_x_then_y pts in
    let Py := sort by_y_then_x pts in
    closestRec Px Py.

(** ** Input and output *)

(** The file as [readPoints] sees it: absent, when [ifstream] cannot open
    it, or the numbers that the successive extractions [fin >> v] yield
    before the first one that fails (at the end of the file or at text that
    is no number). *)
Definition file : Type := option (list R).

(** The loop [while (fin >> x >> y) out.push_back(Point{x, y})]: it stops
    at the first extraction that fails, and an [x] that no [y] follows is
    dropped. *)
Fixpoint read_pairs (nums : list R) (out : list Point) : list Point :=
  match nums with
  | vx :: vy :: rest => read_pairs rest (out ++ [Point.mk vx vy])
  | _ => out
  end.

(** [readPoints]: the returned flag, and the vector [out] as it leaves. *)
Definition readPoints (f : file) (out : list Point) : bool * list Point :=
  match f with
  | None => (false, out)
  | Some nums => (true, read_pairs nums out)
  end.



(** ** Specification vocabulary *)

(** The order on bounds, with [+infinity] on top. *)
Definition dle (u v : double) : Prop :=
  match u, v with
  | _, PInf => True
  | PInf, Fin _ => False
  | Fin r, Fin s => r <= s
  end.

(** [u] occurs in [l] at a position before an occurrence of [v]. *)
Fixpoint PairIn (u v : Point) (l : list Point) : Prop :=
  match l with
  | [] => False
  | p :: l' => (p = u /\ In v l') \/ PairIn u v l'
  end.

(** [u] and [v] occur in [l] at two different positions. *)
Definition UPair (u v : Point) (l : list Point) : Prop :=
  PairIn u v l \/ PairIn v u l.

(** Ascending order of the y-coordinates. *)
Definition le_y (p q : Point) : Prop := Point.y p <= Point.y q.
Definition sorted_by_y (l : list Point) : Prop := StronglySorted le_y l.

(** Ascending order by x, ties broken by y. *)
Definition le_xy (p q : Point) : Prop :=
  Point.x p < Point.x q \/ (Point.x p = Point.x q /\ Point.y p <= Point.y q).
Definition sorted_by_xy (l : list Point) : Prop := StronglySorted le_xy l.

(** The default element of index lookups. *)
Definition origin : Point := Point.mk 0 0.

(** Distance between the elements at two indices. *)
Definition dist_at (l : list Point) (i j : nat) : R :=
  dist (nth i l origin) (nth j l origin).

(** [(i', j')] is visited before [(i, j)] by the loop nest
    [for i { for j > i }]. *)
Definition scan_before (i' j' i j : nat) : Prop :=
  (i' < i)%nat \/ (i' = i /\ j' < j)%nat.

(** [(i, j)] is the first pair, in scan order, at minimum distance. *)
Definition first_min (l : list Point) (i j : nat) : Prop :=
  (i < j < length l)%nat /\
  forall i' j', (i' < j' < length l)%nat ->
    dist_at l i j <= dist_at l i' j' /\
    (scan_before i' j' i j -> dist_at l i j < dist_at l i' j').

(** Equality of points is decidable, as equality of reals is. *)
Definition Point_eq_dec (p q : Point) : {p = q} + {p <> q}.
Proof.
  destruct p as [px py], q as [qx qy].
  destruct (Req_dec_T px qx) as [Hx|Hx]; [|right; congruence].
  destruct (Req_dec_T py qy) as [Hy|Hy]; [|right; congruence].
  left; congruence.
Defined.

(** [p] occurs in the y-ordered view at least as often as in the x-ordered
    one. *)
Definition present (Px Py : list Point) (p : Point) : Prop :=
  (count_occ Point_eq_dec Px p <= count_occ Point_eq_dec Py p)%nat.

(** The combine step of [closestRec], after the two recursive calls. *)
Definition conquer (midPoint : Point) (Py : list Point)
  (leftBest rightBest : ClosestResult) : ClosestResult :=
  let best :=
    if dlt (ClosestResult.dist leftBest) (ClosestResult.dist rightBest)
    then leftBest else rightBest in
  let delta := ClosestResult.dist best in
  let strip := filter (in_strip midPoint delta) Py in
  let stripBest := closestInStrip strip delta in
  if dlt (ClosestResult.dist stripBest) (ClosestResult.dist best)
  then stripBest else best.

(** [r] is the infinite sentinel or a pair of one of the two views, with
    its distance. *)
Definition genuine (Px Py : list Point) (r : ClosestResult) : Prop :=
  r = sentinel PInf
  \/ exists u v, (PairIn u v Px \/ PairIn u v Py) /\
       r = ClosestResult.mk u v (Fin (dist u v)).

(** [r] holds two points of [l], at different positions, with their
    distance, and no two points of [l] are closer. *)
Definition closest_in (l : list Point) (r : ClosestResult) : Prop :=
  (exists u v, UPair u v l /\ r = ClosestResult.mk u v (Fin (dist u v))) /\
  (forall u v, UPair u v l -> dle (ClosestResult.dist r) (Fin (dist u v))).

(** Four points on a line. *)
Definition collinear4 : list Point :=
  [Point.mk 0 0; Point.mk 1 0; Point.mk 2 0; Point.mk 3 0].

(** Five points, the closest two at [(0,0)] and [(1/2,1/2)]. *)
Definition scenario5 : list Point :=
  [Point.mk 0 0; Point.mk 3 4; Point.mk 1 1; Point.mk 5 5;
   Point.mk (1/2) (1/2)].

(** The same five points in ascending order, by x and by y alike. *)
Definition ladder5 : list Point :=
  [Point.mk 0 0; Point.mk (1/2) (1/2); Point.mk 1 1; Point.mk 3 4;
   Point.mk 5 5].

(** Four points, two of them coincident. *)
Definition twins4 : list Point :=
  [Point.mk 1 1; Point.mk 2 2; Point.mk 1 1; Point.mk 0 5].

(** The invariant of a pair-result: [dist] is the distance of [a] and [b]. *)
Definition dist_derived (r : ClosestResult) : Prop :=
  ClosestResult.dist r
  = Fin (dist (ClosestResult.a r) (ClosestResult.b r)).

(** The partition as the claim words it: [p] goes to [YL] iff
    [p.x < midPoint.x], or [p.x == midPoint.x] and [p.y <= midPoint.y];
    otherwise [p] goes to [YR]. *)
Definition coordinate_partition (midPoint : Point) (Py : list Point)
  : list Point * list Point :=
  partition
    (fun p =>
       Rltb (Point.x p) (Point.x midPoint)
       || (Reqb (Point.x p) (Point.x midPoint)
           && Rleb (Point.y p) (Point.y midPoint)))
    Py.

(** [p] may stand before [q] in a vector sorted by [less]: [q] is not
    below [p]. *)
Definition precedes (less : Point -> Point -> bool) (p q : Point) : Prop :=
  less q p = false.

(** Every point occurs in [l'] at least as often as in [l]. *)
Definition contained (l l' : list Point) : Prop :=
  forall p, (count_occ Point_eq_dec l p <= count_occ Point_eq_dec l' p)%nat.

(** The coordinates of a vector of points, in reading order. *)
Definition coordinates (l : list Point) : list R :=
  flat_map (fun p => [Point.x p; Point.y p]) l.

(** ** Numbers: comparisons *)

Lemma Rltb_true u v : Rltb u v = true <-> u < v.
Proof.
  unfold Rltb; destruct (Rlt_dec u v); split; intros;
    auto; discriminate || contradiction.
Qed.

Lemma Rltb_false u v : Rltb u v = false <-> v <= u.
Proof.
  unfold Rltb; destruct (Rlt_dec u v); split; intros;
    try discriminate; auto; lra.
Qed.

Lemma Rleb_true u v : Rleb u v = true <-> u <= v.
Proof.
  unfold Rleb; destruct (Rle_dec u v); split; intros;
    auto; discriminate || contradiction.
Qed.

Lemma Rleb_false u v : Rleb u v = false <-> v < u.
Proof.
  unfold Rleb; destruct (Rle_dec u v); split; intros;
    try discriminate; auto; lra.
Qed.

Lemma Reqb_true u v : Reqb u v = true <-> u = v.
Proof.
  unfold Reqb; destruct (Req_dec_T u v); split; intros; auto;
    discriminate || contradiction.
Qed.

Lemma Reqb_false u v : Reqb u v = false <-> u <> v.
Proof.
  unfold Reqb; destruct (Req_dec_T u v); split; intros; try discriminate;
    auto; contradiction.
Qed.

Lemma dlt_true u v : dlt u v = true <-> ~ dle v u.
Proof.
  destruct u as [r|], v as [s|]; simpl; try rewrite Rltb_true;
    split; intros; try discriminate; auto; try lra; try tauto.
Qed.

Lemma dlt_false u v : dlt u v = false <-> dle v u.
Proof.
  destruct u as [r|], v as [s|]; simpl; try rewrite Rltb_false;
    split; intros; try discriminate; auto; try lra; try tauto.
Qed.

Lemma dge_true u v : dge u v = true <-> dle v u.
Proof.
  destruct u as [r|], v as [s|]; simpl; try rewrite Rleb_true;
    split; intros; try discriminate; auto; try lra; try tauto.
Qed.

Lemma dge_false u v : dge u v = false <-> ~ dle v u.
Proof.
  destruct u as [r|], v as [s|]; simpl; try rewrite Rleb_false;
    split; intros; try discriminate; auto; try lra; try tauto.
Qed.

Lemma dle_refl u : dle u u.
Proof. destruct u; simpl; auto; lra. Qed.

Lemma dle_trans u v w : dle u v -> dle v w -> dle u w.
Proof. destruct u, v, w; simpl; auto; try lra; tauto. Qed.

Lemma dle_antisym u v : dle u v -> dle v u -> u = v.
Proof.
  destruct u, v; simpl; auto; try tauto.
  intros; f_equal; lra.
Qed.

Lemma dle_total u v : dle u v \/ dle v u.
Proof. destruct u, v; simpl; auto; lra. Qed.

Lemma dle_PInf u : dle u PInf.
Proof. destruct u; simpl; auto. Qed.

#[local] Hint Resolve dle_refl dle_PInf : core.

(** ** The distance primitive *)

Lemma dist_nonneg p q : 0 <= dist p q.
Proof. unfold dist; apply sqrt_pos. Qed.

Lemma dist_sym p q : dist p q = dist q p.
Proof. unfold dist; simpl; f_equal; ring. Qed.

Lemma sqrt_sum_ge u v : v <= sqrt (u * u + v * v).
Proof.
  destruct (Rle_dec v 0) as [H|H].
  - pose proof (sqrt_pos (u * u + v * v)); lra.
  - rewrite <- (sqrt_square v) at 1 by lra.
    apply sqrt_le_1_alt. nra.
Qed.

Lemma dist_ge_dy p q : Point.y q - Point.y p <= dist p q.
Proof.
  unfold dist; simpl.
  replace ((Point.y p - Point.y q) * (Point.y p - Point.y q))
    with ((Point.y q - Point.y p) * (Point.y q - Point.y p)) by ring.
  apply sqrt_sum_ge.
Qed.

Lemma dist_ge_dx p q : Point.x q - Point.x p <= dist p q.
Proof.
  unfold dist; simpl.
  replace ((Point.x p - Point.x q) * (Point.x p - Point.x q))
    with ((Point.x q - Point.x p) * (Point.x q - Point.x p)) by ring.
  rewrite Rplus_comm. apply sqrt_sum_ge.
Qed.

Lemma dist_same p : dist p p = 0.
Proof.
  unfold dist; simpl.
  replace ((Point.x p - Point.x p) * (Point.x p - Point.x p) +
           (Point.y p - Point.y p) * (Point.y p - Point.y p)) with 0 by ring.
  apply sqrt_0.
Qed.

(** ** Pairs of a vector *)

Lemma PairIn_In u v l : PairIn u v l -> In u l /\ In v l.
Proof.
  induction l as [|p l IH]; simpl; [tauto|].
  intros [[-> H]|H]; [tauto|]. apply IH in H; tauto.
Qed.

Lemma PairIn_index u v l :
  PairIn u v l <->
  exists i j, (i < j < length l)%nat /\ nth i l origin = u /\ nth j l origin = v.
Proof.
  split.
  - induction l as [|p l IH]; simpl; [tauto|].
    intros [[-> H]|H].
    + destruct (In_nth _ _ origin H) as (j & Hj & Hv).
      exists 0%nat, (S j); simpl; repeat split; auto; lia.
    + destruct (IH H) as (i & j & Hij & Hu & Hv).
      exists (S i), (S j); simpl; repeat split; auto; lia.
  - intros (i & j & Hij & Hu & Hv). revert i j Hij Hu Hv.
    induction l as [|p l IH]; simpl; intros i j Hij Hu Hv; [lia|].
    destruct j as [|j]; [lia|].
    destruct i as [|i].
    + left; split; auto. subst v; apply nth_In; lia.
    + right; apply (IH i j); auto; lia.
Qed.

Lemma PairIn_app u v l1 l2 :
  PairIn u v (l1 ++ l2) <->
  PairIn u v l1 \/ (In u l1 /\ In v l2) \/ PairIn u v l2.
Proof.
  induction l1 as [|p l1 IH]; simpl; [tauto|].
  rewrite IH, in_app_iff. tauto.
Qed.

Lemma PairIn_filter f u v l :
  PairIn u v (filter f l) <-> PairIn u v l /\ f u = true /\ f v = true.
Proof.
  induction l as [|p l IH]; simpl; [tauto|].
  destruct (f p) eqn:E; simpl; rewrite IH, ?filter_In.
  - split.
    + intros [[-> [H1 H2]]|H]; tauto.
    + intros [[[-> H1]|H1] [H2 H3]]; tauto.
  - split; [tauto|].
    intros [[[-> H1]|H1] [H2 H3]]; [congruence|tauto].
Qed.

Lemma UPair_sym u v l : UPair u v l -> UPair v u l.
Proof. unfold UPair; tauto. Qed.

Lemma UPair_filter f u v l :
  UPair u v l -> f u = true -> f v = true -> UPair u v (filter f l).
Proof. unfold UPair; rewrite !PairIn_filter; tauto. Qed.

Lemma PairIn_count u v l :
  PairIn u v l ->
  In u l /\ In v l /\ (u = v -> (2 <= count_occ Point_eq_dec l u)%nat).
Proof.
  intros H; destruct (PairIn_In _ _ _ H) as [Hu Hv]; repeat split; auto.
  intros <-. clear Hu Hv.
  induction l as [|p l IH]; simpl in *; [tauto|].
  destruct H as [[-> H]|H].
  - destruct (Point_eq_dec u u); [|congruence].
    apply (count_occ_In Point_eq_dec) in H. lia.
  - specialize (IH H). destruct (Point_eq_dec p u); lia.
Qed.

Lemma count_UPair u v l :
  In u l -> In v l -> (u = v -> (2 <= count_occ Point_eq_dec l u)%nat) ->
  UPair u v l.
Proof.
  unfold UPair.
  induction l as [|p l IH]; simpl; [tauto|].
  intros Hu Hv Hc.
  destruct (Point_eq_dec p u) as [Hpu|Hpu].
  - subst p. destruct (in_dec Point_eq_dec v l) as [Hin|Hin]; [tauto|].
    destruct Hv as [Hv|Hv]; [|tauto].
    specialize (Hc Hv). subst v.
    assert (count_occ Point_eq_dec l u >= 1)%nat by lia.
    apply (count_occ_In Point_eq_dec) in H. tauto.
  - destruct Hu as [Hu|Hu]; [congruence|].
    destruct (Point_eq_dec p v) as [Hpv|Hpv]; [tauto|].
    destruct Hv as [Hv|Hv]; [congruence|].
    destruct IH as [H|H]; auto.
Qed.

Lemma UPair_Permutation u v l l' :
  Permutation l l' -> UPair u v l -> UPair u v l'.
Proof.
  intros HP H.
  assert (Hc : forall p, count_occ Point_eq_dec l p = count_occ Point_eq_dec l' p)
    by (apply Permutation_count_occ; exact HP).
  destruct H as [H|H]; apply PairIn_count in H; destruct H as (H1 & H2 & H3).
  - apply count_UPair; eauto using Permutation_in.
    intros E. rewrite <- Hc; auto.
  - apply UPair_sym, count_UPair; eauto using Permutation_in.
    intros E. rewrite <- Hc; auto.
Qed.

(** Two different positions hold the two points of a pair. *)
Lemma UPair_index u v l :
  UPair u v l <->
  exists i j, i <> j /\ (i < length l)%nat /\ (j < length l)%nat /\
              nth i l origin = u /\ nth j l origin = v.
Proof.
  unfold UPair; rewrite !PairIn_index; split.
  - intros [(i & j & H & Hu & Hv)|(i & j & H & Hu & Hv)].
    + exists i, j; repeat split; auto; lia.
    + exists j, i; repeat split; auto; lia.
  - intros (i & j & Hne & Hi & Hj & Hu & Hv).
    destruct (Nat.lt_ge_cases i j).
    + left; exists i, j; repeat split; auto.
    + right; exists j, i; repeat split; auto; lia.
Qed.

(** ** Brute force: the loop invariants *)

Lemma improve_spec pi pj best :
  (improve pi pj best = best /\
   dle (ClosestResult.dist best) (Fin (dist pi pj)))
  \/ (improve pi pj best = ClosestResult.mk pi pj (Fin (dist pi pj)) /\
      ~ dle (ClosestResult.dist best) (Fin (dist pi pj))).
Proof.
  unfold improve.
  destruct (dlt (Fin (dist pi pj)) (ClosestResult.dist best)) eqn:E.
  - right; split; auto. apply dlt_true; exact E.
  - left; split; auto. apply dlt_false; exact E.
Qed.

(** The inner loop returns the bound it was given, or the first element of
    [rest] at minimum distance from [pi], when that distance is below the
    bound. *)
Lemma bruteForce_inner_spec pi rest : forall best,
  let r := bruteForce_inner pi rest best in
  (r = best /\
   forall j, (j < length rest)%nat ->
     dle (ClosestResult.dist best) (Fin (dist pi (nth j rest origin))))
  \/ (exists j, (j < length rest)%nat /\
        r = ClosestResult.mk pi (nth j rest origin)
              (Fin (dist pi (nth j rest origin))) /\
        ~ dle (ClosestResult.dist best) (Fin (dist pi (nth j rest origin))) /\
        (forall j', (j' < length rest)%nat ->
           dist pi (nth j rest origin) <= dist pi (nth j' rest origin)) /\
        (forall j', (j' < j)%nat ->
           dist pi (nth j rest origin) < dist pi (nth j' rest origin))).
Proof.
  induction rest as [|q rest IH]; intros best; simpl.
  - left; split; auto; intros; lia.
  - destruct (improve_spec pi q best) as [[E Hq]|[E Hq]]; rewrite E.
    + destruct (IH best)
        as [[Er Hall]|(j & Hj & Er & Hlt & Hmin & Hfirst)].
      * left; split; auto.
        intros [|j] Hj; auto. apply Hall; lia.
      * right; exists (S j); simpl; repeat split; auto; try lia.
        -- intros [|j'] Hj'; [|apply Hmin; lia].
           destruct (ClosestResult.dist best); simpl in *; [lra|tauto].
        -- intros [|j'] Hj'; [|apply Hfirst; lia].
           destruct (ClosestResult.dist best); simpl in *; [lra|tauto].
    + destruct (IH (ClosestResult.mk pi q (Fin (dist pi q))))
        as [[Er Hall]|(j & Hj & Er & Hlt & Hmin & Hfirst)]; simpl in *.
      * right; exists 0%nat; simpl; repeat split; auto; try lia.
        intros [|j] Hj; [lra|]. apply Hall; lia.
      * right; exists (S j); simpl; repeat split; auto; try lia.
        -- intro H; apply Hq.
           eapply dle_trans; [exact H|]. simpl; lra.
        -- intros [|j'] Hj'; [lra|]. apply Hmin; lia.
        -- intros [|j'] Hj'; [lra|]. apply Hfirst; lia.
Qed.

Lemma scan_before_S i' j' i j :
  scan_before (S i') (S j') (S i) (S j) -> scan_before i' j' i j.
Proof. unfold scan_before; lia. Qed.

Lemma dist_at_SS p l i j : dist_at (p :: l) (S i) (S j) = dist_at l i j.
Proof. reflexivity. Qed.

Lemma dist_at_0S p l j : dist_at (p :: l) 0 (S j) = dist p (nth j l origin).
Proof. reflexivity. Qed.

(** The loop nest returns the bound it was given, or the first pair of [l]
    in scan order at minimum distance, when that distance is below the
    bound. *)
Lemma bruteForce_outer_spec l : forall best,
  let r := bruteForce_outer l best in
  (r = best /\
   forall i j, (i < j < length l)%nat ->
     dle (ClosestResult.dist best) (Fin (dist_at l i j)))
  \/ (exists i j, first_min l i j /\
        r = ClosestResult.mk (nth i l origin) (nth j l origin)
              (Fin (dist_at l i j)) /\
        ~ dle (ClosestResult.dist best) (Fin (dist_at l i j))).
Proof.
  induction l as [|p l IH]; intros best; simpl.
  - left; split; auto; intros; lia.
  - pose proof (bruteForce_inner_spec p l best) as H1; cbv zeta in H1.
    pose proof (IH (bruteForce_inner p l best)) as H2; cbv zeta in H2.
    destruct H1 as [[E1 H1]|(j1 & Hj1 & E1 & Hlt1 & Hmin1 & Hfirst1)];
      rewrite E1 in H2 |- *;
      destruct H2 as [[E2 H2]|(i & j & [Hij Hfm] & E2 & Hlt2)].
    + left; split; auto.
      intros [|i] [|j] Hij; try lia.
      * rewrite dist_at_0S. apply H1; lia.
      * rewrite dist_at_SS. apply (H2 i j); lia.
    + right; exists (S i), (S j); rewrite dist_at_SS.
      split; [split; [simpl; lia|]|split; auto].
      intros [|i'] [|j'] Hij'; try (simpl in Hij'; lia);
        rewrite ?dist_at_SS, ?dist_at_0S.
      * assert (Hp := H1 j' ltac:(simpl in Hij'; lia)).
        destruct (ClosestResult.dist best); simpl in *; [|tauto].
        split; intros; lra.
      * destruct (Hfm i' j' ltac:(simpl in Hij'; lia)) as [Ha Hb].
        split; [exact Ha|]. intros Hs; apply Hb, scan_before_S, Hs.
    + right; exists 0%nat, (S j1); rewrite dist_at_0S.
      split; [split; [simpl; lia|]|split; auto].
      intros [|i'] [|j'] Hij'; try (simpl in Hij'; lia);
        rewrite ?dist_at_SS, ?dist_at_0S.
      * split; [apply Hmin1; simpl in Hij'; lia|].
        intros [Hs|[_ Hs]]; [lia|]. apply Hfirst1; lia.
      * assert (Hp := H2 i' j' ltac:(simpl in Hij'; lia)).
        split; [exact Hp|]. intros [Hs|[Hs _]]; lia.
    + right; exists (S i), (S j); rewrite dist_at_SS.
      simpl in Hlt2.
      split; [split; [simpl; lia|]|split; auto].
      * intros [|i'] [|j'] Hij'; try (simpl in Hij'; lia);
          rewrite ?dist_at_SS, ?dist_at_0S.
        -- assert (Hp := Hmin1 j' ltac:(simpl in Hij'; lia)).
           split; intros; lra.
        -- destruct (Hfm i' j' ltac:(simpl in Hij'; lia)) as [Ha Hb].
           split; [exact Ha|]. intros Hs; apply Hb, scan_before_S, Hs.
      * intro H; apply Hlt1.
        eapply dle_trans; [exact H|]. simpl; lra.
Qed.

Lemma bruteForce_spec l :
  (bruteForce l = sentinel PInf /\ (length l < 2)%nat)
  \/ (exists i j, first_min l i j /\
        bruteForce l = ClosestResult.mk (nth i l origin) (nth j l origin)
                         (Fin (dist_at l i j))).
Proof.
  pose proof (bruteForce_outer_spec l (sentinel PInf)) as H; cbv zeta in H.
  destruct H as [[E H]|(i & j & Hfm & E & _)].
  - left; split; auto.
    destruct l as [|p [|q l]]; simpl; try lia.
    exfalso; apply (H 0%nat 1%nat); simpl; lia.
  - right; exists i, j; auto.
Qed.

(** No pair of the vector is closer than the result of [bruteForce]. *)
Lemma bruteForce_complete l u v :
  UPair u v l -> dle (ClosestResult.dist (bruteForce l)) (Fin (dist u v)).
Proof.
  assert (G : forall u v, PairIn u v l ->
            dle (ClosestResult.dist (bruteForce l)) (Fin (dist u v))).
  { clear u v; intros u v (i & j & Hij & <- & <-)%PairIn_index.
    destruct (bruteForce_spec l) as [[_ Hn]|(i0 & j0 & [_ Hfm] & ->)]; [lia|].
    simpl. apply (Hfm i j Hij). }
  intros [H|H]; [|rewrite dist_sym]; apply G, H.
Qed.

(** The result of [bruteForce] is the sentinel or a pair of the vector with
    its distance. *)
Lemma bruteForce_sound l :
  bruteForce l = sentinel PInf
  \/ exists u v, PairIn u v l /\
       bruteForce l = ClosestResult.mk u v (Fin (dist u v)).
Proof.
  destruct (bruteForce_spec l) as [[E _]|(i & j & [Hij _] & E)]; [tauto|].
  right; exists (nth i l origin), (nth j l origin); split; auto.
  apply PairIn_index; exists i, j; auto.
Qed.

(** ** Strip solver: the loop invariants *)

Lemma improve_le_best pi pj best :
  dle (ClosestResult.dist (improve pi pj best)) (ClosestResult.dist best).
Proof.
  destruct (improve_spec pi pj best) as [[-> _]|[-> H]]; auto.
  simpl. destruct (ClosestResult.dist best); simpl in *; auto; lra.
Qed.

Lemma improve_le_dist pi pj best :
  dle (ClosestResult.dist (improve pi pj best)) (Fin (dist pi pj)).
Proof.
  destruct (improve_spec pi pj best) as [[-> H]|[-> _]]; auto.
Qed.

Lemma closestInStrip_inner_le pi rest : forall best,
  dle (ClosestResult.dist (closestInStrip_inner pi rest best))
      (ClosestResult.dist best).
Proof.
  induction rest as [|pj rest IH]; intros best; cbn [closestInStrip_inner]; auto.
  destruct (dge _ _); auto.
  eapply dle_trans; [apply IH|apply improve_le_best].
Qed.

Lemma closestInStrip_outer_le strip : forall best,
  dle (ClosestResult.dist (closestInStrip_outer strip best))
      (ClosestResult.dist best).
Proof.
  induction strip as [|pi rest IH]; intros best; simpl; auto.
  eapply dle_trans; [apply IH|apply closestInStrip_inner_le].
Qed.

(** A result that replaced the bound is a pair of the strip, with its
    distance, strictly below the bound. *)
Lemma closestInStrip_inner_sound pi rest : forall best,
  closestInStrip_inner pi rest best = best
  \/ exists q, In q rest /\
       closestInStrip_inner pi rest best =
         ClosestResult.mk pi q (Fin (dist pi q)) /\
       ~ dle (ClosestResult.dist best) (Fin (dist pi q)).
Proof.
  induction rest as [|pj rest IH]; intros best; cbn [closestInStrip_inner]; auto.
  destruct (dge _ _); auto.
  destruct (IH (improve pi pj best)) as [E|(q & Hq & E & Hlt)].
  - rewrite E.
    destruct (improve_spec pi pj best) as [[E' _]|[E' H]]; rewrite E'; auto.
    right; exists pj; simpl; auto.
  - right; exists q; simpl; repeat split; auto.
    intro H; apply Hlt.
    eapply dle_trans; [apply improve_le_best|exact H].
Qed.

Lemma closestInStrip_outer_sound strip : forall best,
  closestInStrip_outer strip best = best
  \/ exists u v, PairIn u v strip /\
       closestInStrip_outer strip best =
         ClosestResult.mk u v (Fin (dist u v)) /\
       ~ dle (ClosestResult.dist best) (Fin (dist u v)).
Proof.
  induction strip as [|pi rest IH]; intros best; simpl; auto.
  destruct (IH (closestInStrip_inner pi rest best))
    as [E|(u & v & Huv & E & Hlt)].
  - rewrite E.
    destruct (closestInStrip_inner_sound pi rest best)
      as [E'|(q & Hq & E' & Hlt)]; auto.
    right; exists pi, q; simpl; auto.
  - right; exists u, v; repeat split; auto.
    intro H; apply Hlt.
    eapply dle_trans; [apply closestInStrip_inner_le|exact H].
Qed.

(** On points in ascending y order the early exit loses nothing: every
    point after [pi] is at least as far from it as the returned bound. *)
Lemma closestInStrip_inner_complete pi rest :
  sorted_by_y rest ->
  forall best q, In q rest ->
    dle (ClosestResult.dist (closestInStrip_inner pi rest best))
        (Fin (dist pi q)).
Proof.
  induction 1 as [|pj rest Hs IH Hall]; intros best q Hq;
    cbn [closestInStrip_inner In] in *; [tauto|].
  destruct (dge _ _) eqn:E.
  - apply dge_true in E.
    eapply dle_trans; [exact E|]. simpl.
    pose proof (dist_ge_dy pi q) as Hd.
    destruct Hq as [->|Hq]; [lra|].
    rewrite Forall_forall in Hall. specialize (Hall q Hq).
    unfold le_y in Hall. lra.
  - destruct Hq as [->|Hq].
    + eapply dle_trans; [apply closestInStrip_inner_le|apply improve_le_dist].
    + apply IH; exact Hq.
Qed.

Lemma closestInStrip_outer_complete strip :
  sorted_by_y strip ->
  forall best u v, PairIn u v strip ->
    dle (ClosestResult.dist (closestInStrip_outer strip best))
        (Fin (dist u v)).
Proof.
  induction 1 as [|pi rest Hs IH Hall]; intros best u v Huv; simpl in *;
    [tauto|].
  destruct Huv as [[-> Hv]|Huv].
  - eapply dle_trans; [apply closestInStrip_outer_le|].
    apply closestInStrip_inner_complete; auto.
  - apply IH; exact Huv.
Qed.

Lemma closestInStrip_complete strip delta u v :
  sorted_by_y strip -> UPair u v strip ->
  dle (ClosestResult.dist (closestInStrip strip delta)) (Fin (dist u v)).
Proof.
  intros Hs [H|H]; [|rewrite dist_sym];
    apply closestInStrip_outer_complete; auto.
Qed.

(** ** The partitioning loop *)

Lemma left_test_le_xy m p : left_test m p = true <-> le_xy p m.
Proof.
  unfold left_test, le_xy.
  rewrite orb_true_iff, andb_true_iff, Rltb_true, Reqb_true, Rleb_true.
  tauto.
Qed.

(** Whatever [XL] holds and whatever the address test answers, a point
    that passes the outer test is pushed to [YL]. *)
Lemma partition_loop_filter XL m differs Py : forall i YL YR,
  partition_loop XL m differs i Py YL YR =
  (YL ++ filter (left_test m) Py,
   YR ++ filter (fun p => negb (left_test m p)) Py).
Proof.
  induction Py as [|p Py IH]; intros i YL YR; simpl.
  - now rewrite !app_nil_r.
  - destruct (left_test m p) eqn:E; simpl.
    + assert (G : partition_loop XL m differs (S i) Py (YL ++ [p]) YR =
                  (YL ++ p :: filter (left_test m) Py,
                   YR ++ filter (fun p => negb (left_test m p)) Py)).
      { rewrite IH, <- app_assoc; reflexivity. }
      destruct (negb (empty XL) && _); auto.
      destruct (Rltb (Point.x p) (Point.x m)) eqn:E1; auto.
      destruct (Rleb (Point.x p) (Point.x m)) eqn:E2; auto.
      exfalso. apply left_test_le_xy in E.
      apply Rltb_false in E1. apply Rleb_false in E2.
      unfold le_xy in E. lra.
    + rewrite IH, <- app_assoc; reflexivity.
Qed.

Lemma partitionPy_filter XL m Py :
  partitionPy XL m Py =
  (filter (left_test m) Py, filter (fun p => negb (left_test m p)) Py).
Proof. unfold partitionPy; now rewrite partition_loop_filter. Qed.

(** ** Sorting *)

Section Insertion.
Variable less : Point -> Point -> bool.

Hypothesis less_asym : forall p q, less p q = true -> less q p = false.
Hypothesis precedes_trans :
  forall p q r, precedes less p q -> precedes less q r -> precedes less p r.

Lemma insert_Permutation p l : Permutation (p :: l) (insert less p l).
Proof.
  induction l as [|q l IH]; simpl; auto.
  destruct (less p q); auto.
  eapply perm_trans; [apply perm_swap|]. auto.
Qed.

Lemma sort_Permutation l : Permutation l (sort less l).
Proof.
  induction l as [|p l IH]; simpl; auto.
  eapply perm_trans; [|apply insert_Permutation]. auto.
Qed.

Lemma insert_sorted p l :
  StronglySorted (precedes less) l -> StronglySorted (precedes less) (insert less p l).
Proof.
  induction 1 as [|q l Hs IH Hall]; simpl.
  - repeat constructor.
  - destruct (less p q) eqn:E.
    + constructor; [constructor; auto|].
      assert (Hpq : precedes less p q) by (apply less_asym; exact E).
      constructor; auto.
      rewrite Forall_forall in *; intros r Hr.
      eapply precedes_trans; [exact Hpq|auto].
    + constructor; auto.
      rewrite Forall_forall in *; intros r Hr.
      apply (Permutation_in _ (Permutation_sym (insert_Permutation p l))) in Hr.
      destruct Hr as [<-|Hr]; auto.
Qed.

Lemma sort_sorted l : StronglySorted (precedes less) (sort less l).
Proof.
  induction l as [|p l IH]; simpl; [constructor|].
  apply insert_sorted; exact IH.
Qed.
End Insertion.

Lemma StronglySorted_impl (R1 R2 : Point -> Point -> Prop) l :
  (forall p q, R1 p q -> R2 p q) -> StronglySorted R1 l -> StronglySorted R2 l.
Proof.
  intros HR; induction 1 as [|p l Hs IH Hall]; constructor; auto.
  rewrite Forall_forall in *; auto.
Qed.

Lemma by_x_then_y_false p q : by_x_then_y q p = false <-> le_xy p q.
Proof.
  unfold by_x_then_y, le_xy.
  destruct (Reqb (Point.x q) (Point.x p)) eqn:E; simpl.
  - apply Reqb_true in E. rewrite Rltb_false. lra.
  - apply Reqb_false in E. rewrite Rltb_false. lra.
Qed.

Lemma by_y_then_x_false p q : by_y_then_x q p = false -> le_y p q.
Proof.
  unfold by_y_then_x, le_y.
  destruct (Reqb (Point.y q) (Point.y p)) eqn:E; simpl.
  - apply Reqb_true in E. rewrite Rltb_false. lra.
  - apply Reqb_false in E. rewrite Rltb_false. lra.
Qed.

(** A vector has one sorted arrangement when no two different points
    compare as equivalent.  This holds for both comparators of the driver,
    so the vector that [std::sort] leaves is the one [sort] computes. *)
Lemma sorted_Permutation_unique (R0 : Point -> Point -> Prop) :
  (forall p q, R0 p q -> R0 q p -> p = q) ->
  forall l l', StronglySorted R0 l -> StronglySorted R0 l' ->
    Permutation l l' -> l = l'.
Proof.
  intros Hanti. induction l as [|p l IH]; intros l' Hl Hl' HP.
  - apply Permutation_nil in HP. now subst.
  - destruct l' as [|q l'].
    + apply Permutation_sym, Permutation_nil in HP. discriminate.
    + inversion Hl as [|? ? Hs Hall]; subst.
      inversion Hl' as [|? ? Hs' Hall']; subst.
      rewrite Forall_forall in Hall, Hall'.
      assert (E : p = q).
      { pose proof (Permutation_in p HP (or_introl eq_refl)) as H1.
        pose proof (Permutation_in q (Permutation_sym HP) (or_introl eq_refl))
          as H2.
        destruct H1 as [H1|H1]; [congruence|].
        destruct H2 as [H2|H2]; [congruence|].
        apply Hanti; auto. }
      subst q. f_equal. apply IH; auto.
      eapply Permutation_cons_inv; exact HP.
Qed.

Lemma by_x_then_y_antisym p q :
  by_x_then_y p q = false -> by_x_then_y q p = false -> p = q.
Proof.
  rewrite !by_x_then_y_false. unfold le_xy.
  destruct p as [px py], q as [qx qy]; simpl.
  intros H1 H2. f_equal; lra.
Qed.

Lemma by_y_then_x_antisym p q :
  by_y_then_x p q = false -> by_y_then_x q p = false -> p = q.
Proof.
  unfold by_y_then_x.
  destruct p as [px py], q as [qx qy]; simpl.
  destruct (Reqb py qy) eqn:E1; destruct (Reqb qy py) eqn:E2; simpl;
    rewrite ?Reqb_true, ?Reqb_false in *; rewrite !Rltb_false;
    intros H1 H2; f_equal; lra.
Qed.

Lemma sort_by_x_then_y_sorted l : sorted_by_xy (sort by_x_then_y l).
Proof.
  apply StronglySorted_impl with (R1 := fun p q => by_x_then_y q p = false).
  - intros p q; apply by_x_then_y_false.
  - apply sort_sorted.
    + intros p q. unfold by_x_then_y.
      destruct (Reqb (Point.x p) (Point.x q)) eqn:E1;
        destruct (Reqb (Point.x q) (Point.x p)) eqn:E2; simpl;
        rewrite ?Reqb_true, ?Reqb_false in *;
        rewrite !Rltb_true, !Rltb_false; lra.
    + intros p q r. unfold precedes.
      rewrite !by_x_then_y_false. unfold le_xy. lra.
Qed.

Lemma sort_by_y_then_x_sorted l : sorted_by_y (sort by_y_then_x l).
Proof.
  apply StronglySorted_impl with (R1 := fun p q => by_y_then_x q p = false).
  - intros p q; apply by_y_then_x_false.
  - apply sort_sorted.
    + intros p q. unfold by_y_then_x.
      destruct (Reqb (Point.y p) (Point.y q)) eqn:E1;
        destruct (Reqb (Point.y q) (Point.y p)) eqn:E2; simpl;
        rewrite ?Reqb_true, ?Reqb_false in *;
        rewrite !Rltb_true, !Rltb_false; lra.
    + intros p q r. unfold precedes, by_y_then_x.
      destruct (Reqb (Point.y q) (Point.y p)) eqn:E1;
        destruct (Reqb (Point.y r) (Point.y q)) eqn:E2;
        destruct (Reqb (Point.y r) (Point.y p)) eqn:E3; simpl;
        rewrite ?Reqb_true, ?Reqb_false in *;
        rewrite !Rltb_false; lra.
Qed.

(** Whatever order [std::sort] visits the points in, a sorted permutation
    of the input is the vector that [sort] returns. *)
Lemma sort_unique (less : Point -> Point -> bool) l l' :
  (forall p q, less p q = true -> less q p = false) ->
  (forall p q r, precedes less p q -> precedes less q r -> precedes less p r) ->
  (forall p q, less p q = false -> less q p = false -> p = q) ->
  Permutation l l' -> StronglySorted (precedes less) l' ->
  l' = sort less l.
Proof.
  intros Hasym Htrans Hanti HP Hs.
  apply (sorted_Permutation_unique (precedes less)).
  - unfold precedes; auto.
  - exact Hs.
  - apply sort_sorted; auto.
  - eapply perm_trans; [apply Permutation_sym; exact HP|].
    apply sort_Permutation.
Qed.

(** ** Sorted vectors and counting *)

Lemma StronglySorted_app_inv (R0 : Point -> Point -> Prop) l1 l2 :
  StronglySorted R0 (l1 ++ l2) ->
  StronglySorted R0 l1 /\ StronglySorted R0 l2 /\
  (forall p q, In p l1 -> In q l2 -> R0 p q).
Proof.
  induction l1 as [|p l1 IH]; simpl; intros H.
  - repeat split; auto; [constructor|tauto].
  - inversion H as [|? ? Hs Hall]; subst.
    destruct (IH Hs) as (H1 & H2 & H3).
    rewrite Forall_forall in Hall.
    repeat split; auto.
    + constructor; auto. rewrite Forall_forall; intros q Hq.
      apply Hall, in_or_app; auto.
    + intros p' q [<-|Hp] Hq; auto. apply Hall, in_or_app; auto.
Qed.

Lemma StronglySorted_filter (R0 : Point -> Point -> Prop) f l :
  StronglySorted R0 l -> StronglySorted R0 (filter f l).
Proof.
  induction 1 as [|p l Hs IH Hall]; simpl; [constructor|].
  destruct (f p); auto.
  constructor; auto.
  rewrite Forall_forall in *; intros q Hq.
  apply filter_In in Hq; apply Hall; tauto.
Qed.

Lemma PairIn_sorted (R0 : Point -> Point -> Prop) u v l :
  StronglySorted R0 l -> PairIn u v l -> R0 u v.
Proof.
  induction 1 as [|p l Hs IH Hall]; simpl; [tauto|].
  intros [[<- Hv]|H]; auto.
  rewrite Forall_forall in Hall; auto.
Qed.

Lemma count_occ_filter f (l : list Point) p :
  count_occ Point_eq_dec (filter f l) p =
  if f p then count_occ Point_eq_dec l p else 0%nat.
Proof.
  induction l as [|q l IH]; simpl.
  - destruct (f p); reflexivity.
  - destruct (f q) eqn:Eq; simpl; destruct (Point_eq_dec q p) as [->|Hne];
      rewrite IH; try rewrite Eq; auto.
Qed.

Lemma le_xy_refl p : le_xy p p.
Proof. unfold le_xy; lra. Qed.

Lemma le_xy_trans p q r : le_xy p q -> le_xy q r -> le_xy p r.
Proof. unfold le_xy; lra. Qed.

Lemma le_xy_x p q : le_xy p q -> Point.x p <= Point.x q.
Proof. unfold le_xy; lra. Qed.

(** The midpoint heads the right half of the split. *)
Lemma skipn_nth mid (l : list Point) :
  (mid < length l)%nat ->
  skipn mid l = nth mid l origin :: skipn (S mid) l.
Proof.
  revert l; induction mid as [|mid IH]; intros [|p l] H; simpl in *;
    try lia; auto.
  apply IH; lia.
Qed.

(** ** The recursion: one level *)

Lemma closestRec_fuel_step fuel Px Py :
  (3 < length Px)%nat ->
  closestRec_fuel (S fuel) Px Py =
  let mid := (length Px / 2)%nat in
  let m := nth mid Px origin in
  match closestRec_fuel fuel (firstn mid Px) (filter (left_test m) Py),
        closestRec_fuel fuel (skipn mid Px)
          (filter (fun p => negb (left_test m p)) Py) with
  | Some leftBest, Some rightBest => Some (conquer m Py leftBest rightBest)
  | _, _ => None
  end.
Proof.
  intros Hn. cbn [closestRec_fuel].
  destruct (Nat.leb_spec (length Px) 3); [lia|].
  cbv zeta. rewrite partitionPy_filter. reflexivity.
Qed.

Lemma closestRec_fuel_base fuel Px Py :
  (length Px <= 3)%nat ->
  closestRec_fuel (S fuel) Px Py = Some (bruteForce Px).
Proof.
  intros Hn. cbn [closestRec_fuel].
  destruct (Nat.leb_spec (length Px) 3); [reflexivity|lia].
Qed.

Lemma pick_min (u v : ClosestResult) :
  let w := if dlt (ClosestResult.dist u) (ClosestResult.dist v)
           then u else v in
  dle (ClosestResult.dist w) (ClosestResult.dist u) /\
  dle (ClosestResult.dist w) (ClosestResult.dist v).
Proof.
  cbv zeta. destruct (dlt _ _) eqn:E.
  - apply dlt_true in E. split; auto.
    destruct (dle_total (ClosestResult.dist u) (ClosestResult.dist v)); tauto.
  - apply dlt_false in E. split; auto.
Qed.

Lemma conquer_le_left m Py lb rb :
  dle (ClosestResult.dist (conquer m Py lb rb)) (ClosestResult.dist lb).
Proof.
  unfold conquer.
  eapply dle_trans; [apply (proj2 (pick_min _ _))|].
  apply (proj1 (pick_min lb rb)).
Qed.

Lemma conquer_le_right m Py lb rb :
  dle (ClosestResult.dist (conquer m Py lb rb)) (ClosestResult.dist rb).
Proof.
  unfold conquer.
  eapply dle_trans; [apply (proj2 (pick_min _ _))|].
  apply (proj2 (pick_min lb rb)).
Qed.

(** When the two halves tie, [leftBest.dist < rightBest.dist] is false and
    the result of the right half is kept. *)
Lemma tie_keeps_right (lb rb : ClosestResult) :
  ClosestResult.dist lb = ClosestResult.dist rb ->
  (if dlt (ClosestResult.dist lb) (ClosestResult.dist rb) then lb else rb)
  = rb.
Proof.
  intros E. rewrite E.
  now rewrite (proj2 (dlt_false _ _) (dle_refl (ClosestResult.dist rb))).
Qed.

(** A pair that straddles the dividing line and is present in the
    y-ordered view is seen by the strip scan unless the halves already
    did as well. *)
Lemma conquer_le_straddle m Py lb rb u v :
  sorted_by_y Py -> UPair u v Py ->
  Point.x u <= Point.x m <= Point.x v ->
  dle (ClosestResult.dist (conquer m Py lb rb)) (Fin (dist u v)).
Proof.
  intros Hs Huv Hx. unfold conquer.
  set (best := if dlt _ _ then lb else rb).
  destruct (dlt (Fin (dist u v)) (ClosestResult.dist best)) eqn:E.
  - eapply dle_trans; [apply (proj1 (pick_min _ _))|].
    apply closestInStrip_complete.
    + apply StronglySorted_filter; exact Hs.
    + pose proof (dist_ge_dx u v) as Hd.
      apply UPair_filter; auto; unfold in_strip;
        destruct (ClosestResult.dist best) as [d|]; simpl in *; auto;
        apply Rltb_true in E; apply Rltb_true;
        unfold Rabs; destruct (Rcase_abs _); lra.
  - apply dlt_false in E.
    eapply dle_trans; [apply (proj2 (pick_min _ _))|exact E].
Qed.

Lemma present_UPair Px Py u v :
  PairIn u v Px -> present Px Py u -> present Px Py v -> UPair u v Py.
Proof.
  unfold present. intros H Hu Hv.
  apply PairIn_count in H. destruct H as (H1 & H2 & H3).
  apply (count_occ_In Point_eq_dec) in H1, H2.
  apply count_UPair.
  - apply (count_occ_In Point_eq_dec); lia.
  - apply (count_occ_In Point_eq_dec); lia.
  - intros E; specialize (H3 E); lia.
Qed.

(** ** The recursion: completeness

    No pair of the x-ordered view whose two points are present in the
    y-ordered view is closer than the returned bound.  The y-ordered view of
    a right half misses the copies of the midpoint; the pairs they belong to
    straddle the line of the level that dropped them, and its strip scan
    accounts for them. *)
Lemma closestRec_complete : forall fuel Px Py r,
  closestRec_fuel fuel Px Py = Some r ->
  sorted_by_xy Px -> sorted_by_y Py ->
  forall u v, PairIn u v Px -> present Px Py u -> present Px Py v ->
    dle (ClosestResult.dist r) (Fin (dist u v)).
Proof.
  induction fuel as [|fuel IH]; intros Px Py r Hr HPx HPy u v Huv Hu Hv;
    [discriminate|].
  destruct (Nat.le_gt_cases (length Px) 3) as [Hn|Hn].
  - rewrite closestRec_fuel_base in Hr by exact Hn.
    injection Hr as <-. apply bruteForce_complete; left; exact Huv.
  - rewrite closestRec_fuel_step in Hr by exact Hn. cbv zeta in Hr.
    set (mid := (length Px / 2)%nat) in *.
    set (m := nth mid Px origin) in *.
    assert (Hmid : (mid < length Px)%nat)
      by (apply Nat.Div0.div_lt_upper_bound; lia).
    destruct (closestRec_fuel fuel (firstn mid Px) _) as [lb|] eqn:EL;
      [|discriminate].
    destruct (closestRec_fuel fuel (skipn mid Px) _) as [rb|] eqn:ER;
      [|discriminate].
    injection Hr as <-.
    pose proof (firstn_skipn mid Px) as Hsplit.
    unfold sorted_by_xy in HPx. rewrite <- Hsplit in HPx.
    apply StronglySorted_app_inv in HPx. destruct HPx as (HXL & HXR & Hcross).
    assert (HmR : In m (skipn mid Px))
      by (rewrite skipn_nth by exact Hmid; left; reflexivity).
    assert (HR : forall p, In p (skipn mid Px) -> le_xy m p).
    { intros p Hp. rewrite skipn_nth in Hp, HXR by exact Hmid.
      destruct Hp as [<-|Hp]; [apply le_xy_refl|].
      inversion HXR as [|? ? _ Hall]; subst.
      rewrite Forall_forall in Hall; apply Hall, Hp. }
    assert (HL : forall p, In p (firstn mid Px) -> left_test m p = true).
    { intros p Hp. apply left_test_le_xy. apply Hcross; auto. }
    assert (Hcount : forall p, count_occ Point_eq_dec Px p =
              (count_occ Point_eq_dec (firstn mid Px) p +
               count_occ Point_eq_dec (skipn mid Px) p)%nat).
    { intros p. rewrite <- Hsplit at 1. apply count_occ_app. }
    assert (Hstraddle : Point.x u <= Point.x m <= Point.x v ->
              dle (ClosestResult.dist (conquer m Py lb rb)) (Fin (dist u v))).
    { intros Hx. apply conquer_le_straddle; auto.
      apply (present_UPair Px); auto. }
    rewrite <- Hsplit in Huv. apply PairIn_app in Huv.
    destruct Huv as [Huv|[[Hu' Hv']|Huv]].
    + (* both in the left half *)
      eapply dle_trans; [apply conquer_le_left|].
      destruct (PairIn_In _ _ _ Huv) as [Hu' Hv'].
      eapply (IH _ _ _ EL); eauto.
      * apply StronglySorted_filter; exact HPy.
      * unfold present in *. rewrite count_occ_filter, (HL u Hu').
        rewrite Hcount in Hu; lia.
      * unfold present in *. rewrite count_occ_filter, (HL v Hv').
        rewrite Hcount in Hv; lia.
    + (* one in each half *)
      apply Hstraddle. split.
      * apply le_xy_x, left_test_le_xy, HL, Hu'.
      * apply le_xy_x, HR, Hv'.
    + (* both in the right half *)
      destruct (PairIn_In _ _ _ Huv) as [Hu' Hv'].
      destruct (left_test m u) eqn:Eu.
      * (* [u] lies on the line: the pair straddles it *)
        apply Hstraddle. split.
        -- apply le_xy_x, left_test_le_xy, Eu.
        -- apply le_xy_x, HR, Hv'.
      * assert (Ev : left_test m v = false).
        { destruct (left_test m v) eqn:Ev; auto.
          apply left_test_le_xy in Ev.
          assert (Huv' : le_xy u v) by (eapply PairIn_sorted; eauto).
          assert (Hum : left_test m u = true)
            by (apply left_test_le_xy; eapply le_xy_trans; eauto).
          congruence. }
        eapply dle_trans; [apply conquer_le_right|].
        eapply (IH _ _ _ ER); eauto.
        -- apply StronglySorted_filter; exact HPy.
        -- unfold present in *. rewrite count_occ_filter, Eu; simpl.
           rewrite Hcount in Hu; lia.
        -- unfold present in *. rewrite count_occ_filter, Ev; simpl.
           rewrite Hcount in Hv; lia.
Qed.

(** ** The recursion: soundness *)

Lemma genuine_weaken Px Py Px' Py' r :
  (forall u v, PairIn u v Px -> PairIn u v Px') ->
  (forall u v, PairIn u v Py -> PairIn u v Py') ->
  genuine Px Py r -> genuine Px' Py' r.
Proof.
  intros HX HY [E|(u & v & [H|H] & E)]; [left; auto| |];
    right; exists u, v; split; auto.
Qed.

Lemma conquer_genuine m Px Py lb rb :
  genuine Px Py lb -> genuine Px Py rb -> genuine Px Py (conquer m Py lb rb).
Proof.
  intros Hl Hr. unfold conquer.
  set (best := if dlt _ _ then lb else rb).
  assert (Hb : genuine Px Py best) by (unfold best; destruct (dlt _ _); auto).
  destruct (dlt (ClosestResult.dist (closestInStrip _ _)) _) eqn:E; auto.
  unfold closestInStrip in *.
  destruct (closestInStrip_outer_sound
              (filter (in_strip m (ClosestResult.dist best)) Py)
              (sentinel (ClosestResult.dist best)))
    as [E'|(u & v & Huv & E' & _)].
  - rewrite E' in E. simpl in E.
    apply dlt_true in E. exfalso; apply E; auto.
  - rewrite E'. right; exists u, v; split; auto.
    right. apply PairIn_filter in Huv; tauto.
Qed.

Lemma closestRec_sound : forall fuel Px Py r,
  closestRec_fuel fuel Px Py = Some r -> genuine Px Py r.
Proof.
  induction fuel as [|fuel IH]; intros Px Py r Hr; [discriminate|].
  destruct (Nat.le_gt_cases (length Px) 3) as [Hn|Hn].
  - rewrite closestRec_fuel_base in Hr by exact Hn.
    injection Hr as <-.
    destruct (bruteForce_sound Px) as [E|(u & v & Huv & E)].
    + left; exact E.
    + right; exists u, v; auto.
  - rewrite closestRec_fuel_step in Hr by exact Hn. cbv zeta in Hr.
    set (mid := (length Px / 2)%nat) in *.
    set (m := nth mid Px origin) in *.
    destruct (closestRec_fuel fuel (firstn mid Px) _) as [lb|] eqn:EL;
      [|discriminate].
    destruct (closestRec_fuel fuel (skipn mid Px) _) as [rb|] eqn:ER;
      [|discriminate].
    injection Hr as <-.
    pose proof (firstn_skipn mid Px) as Hsplit.
    apply conquer_genuine.
    + apply IH in EL. revert EL; apply genuine_weaken; intros u v H.
      * rewrite <- Hsplit; apply PairIn_app; auto.
      * apply PairIn_filter in H; tauto.
    + apply IH in ER. revert ER; apply genuine_weaken; intros u v H.
      * rewrite <- Hsplit; apply PairIn_app; auto.
      * apply PairIn_filter in H; tauto.
Qed.

(** ** The recursion: termination *)

Lemma half_sizes (Px : list Point) :
  (3 < length Px)%nat ->
  let mid := (length Px / 2)%nat in
  length (firstn mid Px) = mid /\
  length (skipn mid Px) = (length Px - mid)%nat /\
  (2 <= mid < length Px)%nat /\ (2 <= length Px - mid < length Px)%nat.
Proof.
  intros Hn mid.
  assert (H2 : (2 * mid <= length Px < 2 * mid + 2)%nat).
  { unfold mid. pose proof (Nat.div_mod_eq (length Px) 2) as E.
    pose proof (Nat.mod_upper_bound (length Px) 2 ltac:(lia)). lia. }
  rewrite length_firstn, length_skipn. lia.
Qed.

Lemma closestRec_fuel_total : forall fuel Px Py,
  (length Px < fuel)%nat -> exists r, closestRec_fuel fuel Px Py = Some r.
Proof.
  induction fuel as [|fuel IH]; intros Px Py Hf; [lia|].
  destruct (Nat.le_gt_cases (length Px) 3) as [Hn|Hn].
  - rewrite closestRec_fuel_base by exact Hn. eauto.
  - rewrite closestRec_fuel_step by exact Hn. cbv zeta.
    destruct (half_sizes Px Hn) as (H1 & H2 & H3 & H4).
    set (mid := (length Px / 2)%nat) in *.
    destruct (IH (firstn mid Px)
                (filter (left_test (nth mid Px origin)) Py)) as [lb ->];
      [lia|].
    destruct (IH (skipn mid Px)
                (filter (fun p => negb (left_test (nth mid Px origin) p)) Py))
      as [rb ->]; [lia|].
    eauto.
Qed.

(** More fuel does not change a result. *)
Lemma closestRec_fuel_mono : forall fuel fuel' Px Py r,
  closestRec_fuel fuel Px Py = Some r -> (fuel <= fuel')%nat ->
  closestRec_fuel fuel' Px Py = Some r.
Proof.
  induction fuel as [|fuel IH]; intros fuel' Px Py r Hr Hle; [discriminate|].
  destruct fuel' as [|fuel']; [lia|].
  destruct (Nat.le_gt_cases (length Px) 3) as [Hn|Hn].
  - rewrite closestRec_fuel_base in * by exact Hn. exact Hr.
  - rewrite closestRec_fuel_step in * by exact Hn. cbv zeta in *.
    destruct (closestRec_fuel fuel (firstn _ Px) _) as [lb|] eqn:EL;
      [|discriminate].
    destruct (closestRec_fuel fuel (skipn _ Px) _) as [rb|] eqn:ER;
      [|discriminate].
    rewrite (IH fuel' _ _ _ EL), (IH fuel' _ _ _ ER) by lia. exact Hr.
Qed.

(** ** Closest pairs *)

Lemma closest_in_dist_unique l l' r r' :
  Permutation l l' -> closest_in l r -> closest_in l' r' ->
  ClosestResult.dist r = ClosestResult.dist r'.
Proof.
  intros HP [(u & v & Huv & ->) Hmin] [(u' & v' & Huv' & ->) Hmin'].
  apply dle_antisym.
  - apply Hmin. apply (UPair_Permutation _ _ l' l); auto.
    apply Permutation_sym; exact HP.
  - apply Hmin'. apply (UPair_Permutation _ _ l l'); auto.
Qed.

Lemma two_points_UPair (l : list Point) :
  (2 <= length l)%nat -> exists u v, UPair u v l.
Proof.
  destruct l as [|p [|q l]]; simpl; try lia.
  intros _; exists p, q; left; simpl; auto.
Qed.

Lemma bruteForce_closest l :
  (2 <= length l)%nat -> closest_in l (bruteForce l).
Proof.
  intros Hn; split.
  - destruct (bruteForce_sound l) as [E|(u & v & Huv & E)].
    + destruct (two_points_UPair l Hn) as (u & v & Huv).
      pose proof (bruteForce_complete l u v Huv) as H.
      rewrite E in H; simpl in H; tauto.
    + exists u, v; split; auto. left; exact Huv.
  - intros u v; apply bruteForce_complete.
Qed.

Lemma closestPair_unfold pts :
  (2 <= length pts)%nat ->
  closestPair pts = closestRec (sort by_x_then_y pts) (sort by_y_then_x pts).
Proof.
  intros Hn; unfold closestPair.
  destruct (Nat.ltb_spec (length pts) 2); [lia|reflexivity].
Qed.

Lemma closestPair_closest pts :
  (2 <= length pts)%nat ->
  exists r, closestPair pts = Some r /\ closest_in pts r.
Proof.
  intros Hn. rewrite closestPair_unfold by exact Hn.
  set (Px := sort by_x_then_y pts). set (Py := sort by_y_then_x pts).
  assert (HPx : Permutation pts Px) by apply sort_Permutation.
  assert (HPy : Permutation pts Py) by apply sort_Permutation.
  assert (HcX : forall p, count_occ Point_eq_dec pts p =
                          count_occ Point_eq_dec Px p)
    by (apply Permutation_count_occ; exact HPx).
  assert (HcY : forall p, count_occ Point_eq_dec pts p =
                          count_occ Point_eq_dec Py p)
    by (apply Permutation_count_occ; exact HPy).
  destruct (closestRec_fuel_total (S (length Px)) Px Py) as [r Hr]; [lia|].
  exists r; split; [exact Hr|].
  assert (Hmin : forall u v, UPair u v pts ->
            dle (ClosestResult.dist r) (Fin (dist u v))).
  { assert (G : forall u v, PairIn u v Px ->
              dle (ClosestResult.dist r) (Fin (dist u v))).
    { intros u v Huv.
      apply (closestRec_complete _ _ _ _ Hr); auto.
      - apply sort_by_x_then_y_sorted.
      - apply sort_by_y_then_x_sorted.
      - unfold present. rewrite <- HcX, <- HcY. lia.
      - unfold present. rewrite <- HcX, <- HcY. lia. }
    intros u v Huv. apply (UPair_Permutation _ _ _ _ HPx) in Huv.
    destruct Huv as [H|H]; [|rewrite dist_sym]; apply G, H. }
  split; [|exact Hmin].
  destruct (closestRec_sound _ _ _ _ Hr) as [E|(u & v & Huv & E)].
  - destruct (two_points_UPair pts Hn) as (u & v & Huv).
    specialize (Hmin u v Huv). rewrite E in Hmin; simpl in Hmin; tauto.
  - exists u, v; split; auto.
    destruct Huv as [H|H].
    + apply (UPair_Permutation _ _ Px pts);
        [apply Permutation_sym; exact HPx|left; exact H].
    + apply (UPair_Permutation _ _ Py pts);
        [apply Permutation_sym; exact HPy|left; exact H].
Qed.

(** ** Sizes of the two parts of the y-ordered view *)

Lemma filter_length_Permutation f (l l' : list Point) :
  Permutation l l' -> length (filter f l) = length (filter f l').
Proof.
  induction 1 as [|p l l' _ IH|p q l|l l' l'' _ IH1 _ IH2]; simpl; auto.
  - destruct (f p); simpl; auto.
  - destruct (f p), (f q); simpl; auto.
  - congruence.
Qed.

Lemma filter_all f (l : list Point) :
  (forall p, In p l -> f p = true) -> filter f l = l.
Proof.
  induction l as [|p l IH]; simpl; intros H; auto.
  rewrite (H p) by auto. f_equal; auto.
Qed.

(** On an x-sorted view the midpoint itself passes the outer test, so the
    left part of the y-ordered view holds at least [mid + 1] points. *)
Lemma left_part_oversized Px Py :
  (3 < length Px)%nat -> sorted_by_xy Px -> Permutation Px Py ->
  let mid := (length Px / 2)%nat in
  let m := nth mid Px origin in
  (mid < length (filter (left_test m) Py))%nat.
Proof.
  intros Hn HPx HP mid m.
  assert (Hmid : (mid < length Px)%nat)
    by (apply Nat.Div0.div_lt_upper_bound; lia).
  rewrite <- (filter_length_Permutation _ _ _ HP).
  pose proof (firstn_skipn mid Px) as Hsplit.
  rewrite skipn_nth in Hsplit by exact Hmid. fold m in Hsplit.
  unfold sorted_by_xy in HPx. rewrite <- Hsplit in HPx.
  apply StronglySorted_app_inv in HPx. destruct HPx as (_ & _ & Hcross).
  rewrite <- Hsplit.
  change (m :: skipn (S mid) Px) with ([m] ++ skipn (S mid) Px).
  rewrite app_assoc, filter_app, length_app.
  rewrite filter_all.
  - rewrite length_app, length_firstn; simpl. lia.
  - intros p Hp. apply left_test_le_xy.
    apply in_app_or in Hp. destruct Hp as [Hp|[<-|[]]].
    + apply Hcross; simpl; auto.
    + apply le_xy_refl.
Qed.

(** ** Running the program on sample inputs

    The comparisons of the embedding are comparisons of real numbers: they
    are decided by proof, not by computation.  The lemmas and tactics below
    turn a run on numerals into a chain of rewrites. *)

Lemma Rltb_sqrt_true u v : 0 <= u -> u < v -> Rltb (sqrt u) (sqrt v) = true.
Proof. intros; apply Rltb_true, sqrt_lt_1_alt; lra. Qed.

Lemma Rltb_sqrt_false u v : v <= u -> Rltb (sqrt u) (sqrt v) = false.
Proof. intros; apply Rltb_false, sqrt_le_1_alt; lra. Qed.

Lemma Rleb_sqrt_true u t : 0 <= t -> u <= t * t -> Rleb (sqrt u) t = true.
Proof.
  intros Ht Hu; apply Rleb_true.
  rewrite <- (sqrt_square t) by lra. apply sqrt_le_1_alt; lra.
Qed.

Lemma Rleb_sqrt_false u t : 0 <= t -> t * t < u -> Rleb (sqrt u) t = false.
Proof.
  intros Ht Hu; apply Rleb_false.
  rewrite <- (sqrt_square t) at 1 by lra. apply sqrt_lt_1_alt; nra.
Qed.

Lemma Rltb_abs_sqrt_true t u : t * t < u -> Rltb (Rabs t) (sqrt u) = true.
Proof.
  intros Hu; apply Rltb_true.
  rewrite <- (sqrt_square (Rabs t)) by apply Rabs_pos.
  apply sqrt_lt_1_alt. split; [apply Rle_0_sqr|].
  unfold Rabs; destruct (Rcase_abs t); nra.
Qed.

Lemma Rltb_abs_sqrt_false t u : u <= t * t -> Rltb (Rabs t) (sqrt u) = false.
Proof.
  intros Hu; apply Rltb_false.
  rewrite <- (sqrt_square (Rabs t)) by apply Rabs_pos.
  apply sqrt_le_1_alt.
  unfold Rabs; destruct (Rcase_abs t); nra.
Qed.

Lemma Rltb_sqrt_num_true u t : 0 < t -> u < t * t -> Rltb (sqrt u) t = true.
Proof.
  intros Ht Hu; apply Rltb_true.
  destruct (Rle_dec 0 u) as [H0|H0].
  - rewrite <- (sqrt_square t) by lra. apply sqrt_lt_1_alt; lra.
  - rewrite sqrt_neg_0 by lra. exact Ht.
Qed.

Lemma Rltb_sqrt_num_false u t : 0 <= t -> t * t <= u -> Rltb (sqrt u) t = false.
Proof.
  intros Ht Hu; apply Rltb_false.
  rewrite <- (sqrt_square t) at 1 by lra. apply sqrt_le_1_alt; lra.
Qed.

Lemma Rltb_abs_num_true t c : - c < t < c -> Rltb (Rabs t) c = true.
Proof. intros H; apply Rltb_true, Rabs_def1; lra. Qed.

Lemma Rltb_abs_num_false t c : c <= t \/ t <= - c -> Rltb (Rabs t) c = false.
Proof.
  intros H; apply Rltb_false.
  unfold Rabs; destruct (Rcase_abs t); lra.
Qed.

(** Decides the comparisons of numerals that a goal contains. *)
Ltac Rbool :=
  repeat match goal with
  | |- context [Rltb ?u ?v] =>
      first [ rewrite (proj2 (Rltb_true u v)) by lra
            | rewrite (proj2 (Rltb_false u v)) by lra ]
  | |- context [Rleb ?u ?v] =>
      first [ rewrite (proj2 (Rleb_true u v)) by lra
            | rewrite (proj2 (Rleb_false u v)) by lra ]
  | |- context [Reqb ?u ?v] =>
      first [ rewrite (proj2 (Reqb_true u v)) by lra
            | rewrite (proj2 (Reqb_false u v)) by lra ]
  end.

(** Decides the comparisons that involve the square root of a numeral. *)
Ltac Dbool :=
  repeat match goal with
  | |- context [Rltb (sqrt ?u) (sqrt ?v)] =>
      first [ rewrite (Rltb_sqrt_true u v) by lra
            | rewrite (Rltb_sqrt_false u v) by lra ]
  | |- context [Rleb (sqrt ?u) ?t] =>
      first [ rewrite (Rleb_sqrt_true u t) by lra
            | rewrite (Rleb_sqrt_false u t) by lra ]
  | |- context [Rltb (Rabs ?t) (sqrt ?u)] =>
      first [ rewrite (Rltb_abs_sqrt_true t u) by lra
            | rewrite (Rltb_abs_sqrt_false t u) by lra ]
  | |- context [Rltb (sqrt ?u) ?t] =>
      first [ rewrite (Rltb_sqrt_num_true u t) by lra
            | rewrite (Rltb_sqrt_num_false u t) by lra ]
  | |- context [Rltb (Rabs ?t) ?c] =>
      first [ rewrite (Rltb_abs_num_true t c) by lra
            | rewrite (Rltb_abs_num_false t c) by lra ]
  end.

(** One call whose arguments are values, unfolded by one step. *)
Ltac unfold_ready :=
  match goal with
  | |- context [insert ?less ?p []] =>
      change (insert less p []) with [p]
  | |- context [insert ?less ?p (?q :: ?l)] =>
      change (insert less p (q :: l))
        with (if less p q then p :: q :: l else q :: insert less p l)
  | |- context [improve ?p ?q (ClosestResult.mk ?a ?b ?d)] =>
      change (improve p q (ClosestResult.mk a b d))
        with (if dlt (Fin (dist p q)) d
              then ClosestResult.mk p q (Fin (dist p q))
              else ClosestResult.mk a b d)
  | |- context [closestInStrip_inner ?p [] ?best] =>
      change (closestInStrip_inner p [] best) with best
  | |- context [closestInStrip_inner ?p (?q :: ?rest)
                  (ClosestResult.mk ?a ?b ?d)] =>
      change (closestInStrip_inner p (q :: rest) (ClosestResult.mk a b d))
        with (if dge (Fin (Point.y q - Point.y p)) d
              then ClosestResult.mk a b d
              else closestInStrip_inner p rest
                     (improve p q (ClosestResult.mk a b d)))
  | |- context [filter ?f []] =>
      change (filter f []) with (@nil Point)
  | |- context [filter (in_strip ?m ?delta) (?p :: ?l)] =>
      lazymatch delta with Fin _ => idtac | PInf => idtac end;
      change (filter (in_strip m delta) (p :: l))
        with (if dlt (Fin (Rabs (Point.x p - Point.x m))) delta
              then p :: filter (in_strip m delta) l
              else filter (in_strip m delta) l)
  | |- context [partition_loop ?XL ?m ?d ?i [] ?YL ?YR] =>
      change (partition_loop XL m d i [] YL YR) with (YL, YR)
  | |- context [partition_loop ?XL ?m ?d ?i (?p :: ?rest) ?YL ?YR] =>
      change (partition_loop XL m d i (p :: rest) YL YR)
        with (if left_test m p then
                if negb (empty XL)
                   && (Rltb (Point.x p) (Point.x m) || d i)
                then partition_loop XL m d (S i) rest (YL ++ [p]) YR
                else if Rltb (Point.x p) (Point.x m)
                then partition_loop XL m d (S i) rest (YL ++ [p]) YR
                else if Rleb (Point.x p) (Point.x m)
                then partition_loop XL m d (S i) rest (YL ++ [p]) YR
                else partition_loop XL m d (S i) rest YL (YR ++ [p])
              else partition_loop XL m d (S i) rest YL (YR ++ [p]))
  | |- context [closestRec_fuel (S ?f) ?Px ?Py] =>
      let t := eval cbv beta iota delta [closestRec_fuel] in
                 (closestRec_fuel (S f) Px Py) in
      change (closestRec_fuel (S f) Px Py) with t;
      fold closestRec_fuel
  end.

(** Unfold what does not recurse, compute on the vectors, and decide the
    comparisons that have become comparisons of numerals. *)
Ltac settle :=
  cbv beta iota zeta delta
      [closestPair sort by_x_then_y by_y_then_x left_test empty local_copy
       partitionPy bruteForce improve dist sentinel dlt dge
       closestInStrip closestRec
       Point.x Point.y ClosestResult.dist ClosestResult.a ClosestResult.b
       negb andb orb];
  cbn [length Nat.leb Nat.ltb Nat.div Nat.divmod fst snd nth firstn skipn app
       fold_right bruteForce_outer bruteForce_inner closestInStrip_outer];
  Rbool; Dbool; cbv beta iota.

(** Runs the program, innermost calls first. *)
Ltac run := settle; repeat (unfold_ready; settle); try reflexivity.

Lemma collinear4_sorted_by_xy : sorted_by_xy collinear4.
Proof.
  unfold collinear4.
  repeat (constructor; try (unfold le_xy; simpl; lra)).
Qed.

Lemma collinear4_sorted_by_y : sorted_by_y collinear4.
Proof.
  unfold collinear4.
  repeat (constructor; try (unfold le_y; simpl; lra)).
Qed.

Lemma ladder5_sorted_by_y : sorted_by_y ladder5.
Proof.
  unfold ladder5.
  repeat (constructor; try (unfold le_y; simpl; lra)).
Qed.

(** The two sorts of the driver on the five sample points. *)
Example sort_scenario5 :
  sort by_x_then_y scenario5 = ladder5 /\
  sort by_y_then_x scenario5 = ladder5.
Proof. unfold scenario5, ladder5; split; run. Qed.

(** The loop on the four collinear points: three go left, one goes
    right, while the x-ordered halves hold two each. *)
Example partitionPy_collinear4 :
  partitionPy (firstn 2 collinear4) (nth 2 collinear4 (Point.mk 0 0))
    collinear4
  = ([Point.mk 0 0; Point.mk 1 0; Point.mk 2 0], [Point.mk 3 0]).
Proof. unfold collinear4; run. Qed.

(** The five sample points: the closest two are [(0,0)] and [(1/2,1/2)],
    at distance [sqrt (1/2)]. *)
Example closestPair_scenario5 :
  closestPair scenario5
  = Some (ClosestResult.mk (Point.mk 0 0) (Point.mk (1/2) (1/2))
            (Fin (dist (Point.mk 0 0) (Point.mk (1/2) (1/2))))).
Proof. unfold scenario5; run. Qed.

Example dist_scenario5 :
  dist (Point.mk 0 0) (Point.mk (1/2) (1/2)) = sqrt (1/2).
Proof. unfold dist; simpl; f_equal; lra. Qed.

(** Points on a line: an adjacent pair, at distance [1].  The two halves
    tie, and [leftBest.dist < rightBest.dist] being false the pair of the
    right half is returned. *)
Example closestPair_collinear4 :
  closestPair collinear4
  = Some (ClosestResult.mk (Point.mk 2 0) (Point.mk 3 0)
            (Fin (dist (Point.mk 2 0) (Point.mk 3 0)))).
Proof. unfold collinear4; run. Qed.

Example dist_collinear4 : dist (Point.mk 2 0) (Point.mk 3 0) = 1.
Proof.
  unfold dist; simpl.
  replace ((2 - 3) * (2 - 3) + (0 - 0) * (0 - 0)) with 1 by lra.
  apply sqrt_1.
Qed.

(** Coincident points are returned, at distance [0]. *)
Example closestPair_twins4 :
  closestPair twins4
  = Some (ClosestResult.mk (Point.mk 1 1) (Point.mk 1 1)
            (Fin (dist (Point.mk 1 1) (Point.mk 1 1)))).
Proof. unfold twins4; run. Qed.

(** Two points: exactly those two. *)
Example closestPair_two :
  closestPair [Point.mk 3 4; Point.mk 0 0]
  = Some (ClosestResult.mk (Point.mk 0 0) (Point.mk 3 4)
            (Fin (dist (Point.mk 0 0) (Point.mk 3 4)))).
Proof. run. Qed.

(** The strip solver on the five sorted points with bound [1]. *)
Example closestInStrip_ladder5 :
  closestInStrip ladder5 (Fin 1)
  = ClosestResult.mk (Point.mk 0 0) (Point.mk (1/2) (1/2))
      (Fin (dist (Point.mk 0 0) (Point.mk (1/2) (1/2)))).
Proof. unfold ladder5; run. Qed.

(** * The claims *)

(** C1.  On at least two points the distance that [closestPair] returns
    equals the distance that the exhaustive [bruteForce] returns on the
    same points. *)
Theorem closestPair_agrees_with_bruteForce (pts : list Point) :
  (2 <= length pts)%nat ->
  exists r, closestPair pts = Some r /\
            ClosestResult.dist r = ClosestResult.dist (bruteForce pts).
Proof.
  intros Hn.
  destruct (closestPair_closest pts Hn) as (r & Hr & Hc).
  exists r; split; [exact Hr|].
  apply (closest_in_dist_unique pts pts); auto.
  apply bruteForce_closest; exact Hn.
Qed.

Lemma closestPair_agrees_with_bruteForce_witness :
  (2 <= length scenario5)%nat /\
  exists r, closestPair scenario5 = Some r /\
            ClosestResult.dist r = ClosestResult.dist (bruteForce scenario5).
Proof.
  split; [simpl; lia|].
  apply (closestPair_agrees_with_bruteForce scenario5); simpl; lia.
Defined.

(** C2.  The sizes that the claim promises are not the sizes the loop
    produces.  Whenever [Px] is x-sorted and [Py] holds the same points,
    the midpoint [Px[mid]], which belongs to [XR], passes the loop's outer
    test and lands in [YL]: [YL] is strictly larger than [XL] and [YR]
    strictly smaller than [XR]. *)
Theorem partitionPy_sizes_differ (Px Py : list Point) :
  (3 < length Px)%nat ->
  sorted_by_xy Px -> sorted_by_y Py -> Permutation Px Py ->
  let mid := (length Px / 2)%nat in
  let midPoint := nth mid Px (Point.mk 0 0) in
  let XL := firstn mid Px in
  let XR := skipn mid Px in
  let YL := fst (partitionPy XL midPoint Py) in
  let YR := snd (partitionPy XL midPoint Py) in
  length XL = mid /\ length XR = (length Px - mid)%nat /\
  (length XL < length YL)%nat /\ (length YR < length XR)%nat.
Proof.
  intros Hn HPx _ HP mid midPoint XL XR YL YR.
  destruct (half_sizes Px Hn) as (H1 & H2 & _ & _).
  pose proof (left_part_oversized Px Py Hn HPx HP) as Hl; cbv zeta in Hl.
  pose proof (filter_length (left_test midPoint) Py) as Hsum.
  pose proof (Permutation_length HP) as Hlen.
  unfold YL, YR, XL, XR. rewrite partitionPy_filter; simpl.
  fold mid in H1, H2, Hl. fold midPoint.
  change (nth mid Px origin) with midPoint in Hl.
  rewrite H1, H2. lia.
Qed.

Lemma partitionPy_sizes_differ_witness :
  (3 < length collinear4)%nat /\
  sorted_by_xy collinear4 /\ sorted_by_y collinear4 /\
  Permutation collinear4 collinear4 /\
  length (firstn 2 collinear4) = 2%nat /\
  length (skipn 2 collinear4) = 2%nat /\
  length (fst (partitionPy (firstn 2 collinear4)
                 (nth 2 collinear4 (Point.mk 0 0)) collinear4)) = 3%nat /\
  length (snd (partitionPy (firstn 2 collinear4)
                 (nth 2 collinear4 (Point.mk 0 0)) collinear4)) = 1%nat /\
  (length (firstn (length collinear4 / 2) collinear4)
   < length (fst (partitionPy
                    (firstn (length collinear4 / 2) collinear4)
                    (nth (length collinear4 / 2) collinear4 (Point.mk 0 0))
                    collinear4)))%nat.
Proof.
  assert (H1 : (3 < length collinear4)%nat) by (simpl; lia).
  pose proof (partitionPy_sizes_differ collinear4 collinear4 H1
                collinear4_sorted_by_xy collinear4_sorted_by_y
                (Permutation_refl _)) as H.
  cbv zeta in H.
  split; [exact H1|].
  split; [exact collinear4_sorted_by_xy|].
  split; [exact collinear4_sorted_by_y|].
  split; [apply Permutation_refl|].
  rewrite partitionPy_collinear4.
  repeat split; try reflexivity. apply H.
Defined.

(** C3, as stated, fails on the sentinels: [bruteForce] and [closestPair]
    on no points return the origin twice with distance [+infinity], and
    [closestInStrip] on an empty strip with bound [1] returns the origin
    twice with distance [1]. *)
Lemma dist_derived_fails_on_sentinels :
  ~ dist_derived (bruteForce []) /\
  ~ dist_derived (closestInStrip [] (Fin 1)) /\
  closestPair [] = Some (sentinel PInf) /\ ~ dist_derived (sentinel PInf).
Proof.
  unfold dist_derived; simpl; repeat split; try discriminate.
  rewrite (dist_same (Point.mk 0 0)). intros H; injection H; lra.
Qed.

(** C3, amended.  Every result of [bruteForce], [closestInStrip],
    [closestRec] and [closestPair] satisfies [dist == distance(a, b)],
    unless it is the sentinel the operation starts from: the origin twice
    with [+infinity], or for [closestInStrip] with the bound [delta] it
    was given. *)
Theorem dist_derived_or_sentinel :
  (forall pts, bruteForce pts = sentinel PInf \/ dist_derived (bruteForce pts))
  /\ (forall strip delta,
        closestInStrip strip delta = sentinel delta
        \/ dist_derived (closestInStrip strip delta))
  /\ (forall Px Py, exists r,
        closestRec Px Py = Some r /\ (r = sentinel PInf \/ dist_derived r))
  /\ (forall pts, exists r,
        closestPair pts = Some r /\ (r = sentinel PInf \/ dist_derived r)).
Proof.
  assert (HR : forall Px Py, exists r,
            closestRec Px Py = Some r /\ (r = sentinel PInf \/ dist_derived r)).
  { intros Px Py.
    destruct (closestRec_fuel_total (S (length Px)) Px Py) as [r Hr]; [lia|].
    exists r; split; [exact Hr|].
    destruct (closestRec_sound _ _ _ _ Hr) as [E|(u & v & _ & ->)]; auto.
    right; reflexivity. }
  repeat split.
  - intros pts.
    destruct (bruteForce_sound pts) as [E|(u & v & _ & ->)]; auto.
    right; reflexivity.
  - intros strip delta. unfold closestInStrip.
    destruct (closestInStrip_outer_sound strip (sentinel delta))
      as [E|(u & v & _ & -> & _)]; auto.
    right; reflexivity.
  - exact HR.
  - intros pts. unfold closestPair.
    destruct (length pts <? 2)%nat; [|apply HR].
    exists (sentinel PInf); auto.
Qed.







(** C7.  On no point or one point [closestPair] returns the sentinel with
    distance [+infinity]. *)
Theorem closestPair_too_small (pts : list Point) :
  (length pts < 2)%nat -> closestPair pts = Some (sentinel PInf).
Proof.
  intros Hn; unfold closestPair.
  destruct (Nat.ltb_spec (length pts) 2); [reflexivity|lia].
Qed.

Lemma closestPair_too_small_witness :
  closestPair [] = Some (sentinel PInf) /\
  closestPair [Point.mk 3 4] = Some (sentinel PInf).
Proof.
  split.
  - apply (closestPair_too_small []); simpl; lia.
  - apply (closestPair_too_small [Point.mk 3 4]); simpl; lia.
Defined.

(** C8.  [closestRec] returns on every two vectors: [length Px + 1]
    levels of recursion are enough, and no larger allowance changes the
    result.  [closestPair] returns on every vector.  Above the base case
    the two recursive calls receive [n/2] and [n - n/2] points, both fewer
    than [n]. *)
Theorem closestRec_terminates (pts Px Py : list Point) :
  (exists r, closestRec Px Py = Some r /\
     forall fuel, (length Px < fuel)%nat ->
       closestRec_fuel fuel Px Py = Some r) /\
  (exists r, closestPair pts = Some r) /\
  ((3 < length Px)%nat ->
   let mid := (length Px / 2)%nat in
   length (firstn mid Px) = mid /\
   length (skipn mid Px) = (length Px - mid)%nat /\
   (mid < length Px)%nat /\ (length Px - mid < length Px)%nat).
Proof.
  repeat split.
  - destruct (closestRec_fuel_total (S (length Px)) Px Py) as [r Hr]; [lia|].
    exists r; split; [exact Hr|].
    intros fuel Hf. apply (closestRec_fuel_mono (S (length Px))); auto; lia.
  - unfold closestPair. destruct (length pts <? 2)%nat; [eauto|].
    apply closestRec_fuel_total; lia.
  - apply half_sizes; auto.
  - apply half_sizes; auto.
  - apply (half_sizes Px); auto.
  - apply (half_sizes Px); auto.
Qed.

Lemma closestRec_terminates_witness :
  (3 < length collinear4)%nat /\
  (exists r, closestRec collinear4 collinear4 = Some r) /\
  length (firstn (length collinear4 / 2) collinear4) = 2%nat.
Proof.
  pose proof (closestRec_terminates collinear4 collinear4 collinear4)
    as (H1 & _ & H3).
  assert (Hn : (3 < length collinear4)%nat) by (simpl; lia).
  specialize (H3 Hn). cbv zeta in H3.
  split; [exact Hn|]. split.
  - destruct H1 as (r & Hr & _); eauto.
  - apply H3.
Defined.

(** C9.  [closestPair] returns the same distance on a vector and on every
    permutation of it. *)
Theorem closestPair_permutation (pts pts' : list Point) :
  Permutation pts pts' ->
  exists r r', closestPair pts = Some r /\ closestPair pts' = Some r' /\
               ClosestResult.dist r = ClosestResult.dist r'.
Proof.
  intros HP. pose proof (Permutation_length HP) as Hlen.
  destruct (Nat.lt_ge_cases (length pts) 2) as [Hn|Hn].
  - exists (sentinel PInf), (sentinel PInf). unfold closestPair.
    destruct (Nat.ltb_spec (length pts) 2); [|lia].
    destruct (Nat.ltb_spec (length pts') 2); [|lia]. auto.
  - destruct (closestPair_closest pts Hn) as (r & Hr & Hc).
    destruct (closestPair_closest pts' ltac:(lia)) as (r' & Hr' & Hc').
    exists r, r'; repeat split; auto.
    apply (closest_in_dist_unique pts pts'); auto.
Qed.

Lemma closestPair_permutation_witness :
  Permutation collinear4 (rev collinear4) /\
  exists r r', closestPair collinear4 = Some r /\
               closestPair (rev collinear4) = Some r' /\
               ClosestResult.dist r = ClosestResult.dist r'.
Proof.
  split; [apply Permutation_rev|].
  apply (closestPair_permutation collinear4 (rev collinear4)).
  apply Permutation_rev.
Defined.

(** C10.  In a call of [closestRec] on more than three points, [XL] is not
    empty, and the partitioning loop computes the partition by the pure
    coordinate test, whatever the address test [&p != &midPoint] answers:
    the nested branches never decide where a point goes. *)
Theorem partition_loop_is_coordinate_test (Px Py : list Point) :
  (3 < length Px)%nat ->
  let mid := (length Px / 2)%nat in
  let midPoint := nth mid Px (Point.mk 0 0) in
  let XL := firstn mid Px in
  empty XL = false /\
  (forall differs,
     partition_loop XL midPoint differs 0 Py [] []
     = coordinate_partition midPoint Py) /\
  partitionPy XL midPoint Py = coordinate_partition midPoint Py.
Proof.
  intros Hn mid midPoint XL.
  assert (G : forall differs,
            partition_loop XL midPoint differs 0 Py [] []
            = coordinate_partition midPoint Py).
  { intros differs. rewrite partition_loop_filter.
    unfold coordinate_partition. rewrite partition_as_filter. reflexivity. }
  repeat split; auto.
  - destruct (half_sizes Px Hn) as (H1 & _ & H3 & _). fold mid in H1, H3.
    unfold XL. destruct (firstn mid Px); simpl in *; [lia|reflexivity].
  - apply G.
Qed.

Lemma partition_loop_is_coordinate_test_witness :
  (3 < length collinear4)%nat /\
  partitionPy (firstn (length collinear4 / 2) collinear4)
    (nth (length collinear4 / 2) collinear4 (Point.mk 0 0)) collinear4
  = coordinate_partition
      (nth (length collinear4 / 2) collinear4 (Point.mk 0 0)) collinear4.
Proof.
  assert (Hn : (3 < length collinear4)%nat) by (simpl; lia).
  split; [exact Hn|].
  apply (partition_loop_is_coordinate_test collinear4 collinear4 Hn).
Defined.

(** * Further properties of the program *)

(** ** The distance primitive *)





(** ** More points, smaller distance *)

Lemma contained_cons p l : contained l (p :: l).
Proof. intros q; simpl. destruct (Point_eq_dec p q); lia. Qed.

Lemma contained_Permutation l l' : Permutation l l' -> contained l l'.
Proof.
  intros HP q.
  rewrite (Permutation_count_occ Point_eq_dec l l') in HP.
  rewrite (HP q). lia.
Qed.

Lemma UPair_contained u v l l' :
  contained l l' -> UPair u v l -> UPair u v l'.
Proof.
  intros Hc H.
  assert (G : forall u v, PairIn u v l -> UPair u v l').
  { clear u v H; intros u v H.
    apply PairIn_count in H. destruct H as (H1 & H2 & H3).
    apply (count_occ_In Point_eq_dec) in H1, H2.
    pose proof (Hc u). pose proof (Hc v).
    apply count_UPair.
    - apply (count_occ_In Point_eq_dec); lia.
    - apply (count_occ_In Point_eq_dec); lia.
    - intros E; specialize (H3 E); lia. }
  destruct H as [H|H]; [|apply UPair_sym]; apply G, H.
Qed.

Lemma UPair_length u v (l : list Point) : UPair u v l -> (2 <= length l)%nat.
Proof.
  intros (i & j & Hne & Hi & Hj & _)%UPair_index. lia.
Qed.

Lemma closestPair_total pts : exists r, closestPair pts = Some r.
Proof.
  unfold closestPair. destruct (length pts <? 2)%nat; [eauto|].
  apply closestRec_fuel_total; lia.
Qed.

(** X3.  [bruteForce] never returns a larger distance on more points: if
    every point occurs in [pts'] at least as often as in [pts], the
    distance returned on [pts'] is at most the one returned on [pts].  In
    particular the distance does not depend on the order of the points. *)
Theorem bruteForce_antimonotone (pts pts' : list Point) :
  contained pts pts' ->
  dle (ClosestResult.dist (bruteForce pts'))
      (ClosestResult.dist (bruteForce pts)).
Proof.
  intros Hc.
  destruct (bruteForce_sound pts) as [E|(u & v & Huv & E)]; rewrite E; simpl.
  - apply dle_PInf.
  - apply bruteForce_complete.
    apply (UPair_contained _ _ pts); auto. left; exact Huv.
Qed.

Lemma bruteForce_antimonotone_witness :
  contained collinear4 (Point.mk 7 7 :: collinear4) /\
  dle (ClosestResult.dist (bruteForce (Point.mk 7 7 :: collinear4)))
      (ClosestResult.dist (bruteForce collinear4)).
Proof.
  split; [apply contained_cons|].
  apply (bruteForce_antimonotone collinear4 (Point.mk 7 7 :: collinear4)).
  apply contained_cons.
Defined.

(** X4.  [closestPair] never returns a larger distance on more points: if
    every point occurs in [pts'] at least as often as in [pts], the
    distance returned on [pts'] is at most the one returned on [pts]. *)
Theorem closestPair_antimonotone (pts pts' : list Point) :
  contained pts pts' ->
  exists r r', closestPair pts = Some r /\ closestPair pts' = Some r' /\
               dle (ClosestResult.dist r') (ClosestResult.dist r).
Proof.
  intros Hc.
  destruct (Nat.lt_ge_cases (length pts) 2) as [Hn|Hn].
  - destruct (closestPair_total pts') as [r' Hr'].
    exists (sentinel PInf), r'; split; [|split; [exact Hr'|apply dle_PInf]].
    unfold closestPair.
    destruct (Nat.ltb_spec (length pts) 2); [reflexivity|lia].
  - destruct (closestPair_closest pts Hn)
      as (r & Hr & (u & v & Huv & ->) & _).
    pose proof (UPair_contained _ _ _ _ Hc Huv) as Huv'.
    destruct (closestPair_closest pts' (UPair_length _ _ _ Huv'))
      as (r' & Hr' & _ & Hmin).
    exists (ClosestResult.mk u v (Fin (dist u v))), r'.
    split; [exact Hr|split; [exact Hr'|]].
    apply Hmin, Huv'.
Qed.

Lemma closestPair_antimonotone_witness :
  contained scenario5 (Point.mk 7 7 :: scenario5) /\
  exists r r', closestPair scenario5 = Some r /\
               closestPair (Point.mk 7 7 :: scenario5) = Some r' /\
               dle (ClosestResult.dist r') (ClosestResult.dist r).
Proof.
  split; [apply contained_cons|].
  apply (closestPair_antimonotone scenario5 (Point.mk 7 7 :: scenario5)).
  apply contained_cons.
Defined.



(** ** The strip solver on any strip *)

(** X6.  On any strip, sorted or not, and any bound, [closestInStrip]
    returns a distance that never exceeds [delta]; its result is the
    sentinel with distance [delta], or the points at two indices [i < j] of
    the strip with their distance, strictly below [delta].  With a bound
    that is zero or negative it returns the sentinel. *)
Theorem closestInStrip_any_strip (strip : list Point) (delta : double) :
  let r := closestInStrip strip delta in
  dle (ClosestResult.dist r) delta /\
  (r = sentinel delta \/
   exists i j, (i < j < length strip)%nat /\
     r = ClosestResult.mk (nth i strip origin) (nth j strip origin)
           (Fin (dist_at strip i j)) /\
     dlt (Fin (dist_at strip i j)) delta = true) /\
  (forall d, delta = Fin d -> d <= 0 -> r = sentinel delta).
Proof.
  intros r.
  assert (H2 : r = sentinel delta \/
     exists i j, (i < j < length strip)%nat /\
       r = ClosestResult.mk (nth i strip origin) (nth j strip origin)
             (Fin (dist_at strip i j)) /\
       dlt (Fin (dist_at strip i j)) delta = true).
  { destruct (closestInStrip_outer_sound strip (sentinel delta))
      as [E|(u & v & Huv & E & Hlt)]; [left; exact E|right].
    apply PairIn_index in Huv. destruct Huv as (i & j & Hij & <- & <-).
    exists i, j; repeat split; try tauto.
    apply dlt_true; exact Hlt. }
  split; [apply (closestInStrip_outer_le strip (sentinel delta))|].
  split; [exact H2|].
  intros d -> Hd.
  destruct H2 as [E|(i & j & _ & _ & Hlt)]; [exact E|exfalso].
  simpl in Hlt. apply Rltb_true in Hlt.
  pose proof (dist_nonneg (nth i strip origin) (nth j strip origin)).
  unfold dist_at in Hlt. lra.
Qed.

Lemma closestInStrip_any_strip_witness :
  0 <= 0 /\ closestInStrip scenario5 (Fin 0) = sentinel (Fin 0).
Proof.
  split; [lra|].
  apply (proj2 (proj2 (closestInStrip_any_strip scenario5 (Fin 0))) 0
           eq_refl); lra.
Defined.

(** ** The two parts of the y-ordered view *)

Lemma filter_split_Permutation f (l : list Point) :
  Permutation (filter f l ++ filter (fun p => negb (f p)) l) l.
Proof.
  induction l as [|p l IH]; simpl; auto.
  destruct (f p); simpl.
  - constructor; exact IH.
  - apply Permutation_sym, Permutation_cons_app, Permutation_sym, IH.
Qed.

(** X7.  The partitioning loop of [closestRec] loses no point and invents
    none: [YL] and [YR] together hold the points of [Py], each as often.
    [YL] holds the points that are not after [midPoint] in (x, then y)
    order and [YR] the others, both in the order they had in [Py], so both
    are in ascending y order when [Py] is. *)
Theorem partitionPy_keeps_points (XL : list Point) (midPoint : Point)
  (Py : list Point) :
  let YL := fst (partitionPy XL midPoint Py) in
  let YR := snd (partitionPy XL midPoint Py) in
  Permutation (YL ++ YR) Py /\
  (forall p, In p YL <-> In p Py /\ le_xy p midPoint) /\
  (forall p, In p YR <-> In p Py /\ ~ le_xy p midPoint) /\
  (forall u v, PairIn u v YL -> PairIn u v Py) /\
  (forall u v, PairIn u v YR -> PairIn u v Py) /\
  (sorted_by_y Py -> sorted_by_y YL /\ sorted_by_y YR).
Proof.
  rewrite partitionPy_filter; simpl.
  split; [apply filter_split_Permutation|].
  split.
  { intros p. rewrite filter_In, left_test_le_xy. tauto. }
  split.
  { intros p. rewrite filter_In.
    destruct (left_test midPoint p) eqn:E; simpl.
    - apply left_test_le_xy in E. split; [intros [_ H]; discriminate|tauto].
    - assert (~ le_xy p midPoint)
        by (intros H; apply left_test_le_xy in H; congruence).
      tauto. }
  split; [intros u v H; apply PairIn_filter in H; tauto|].
  split; [intros u v H; apply PairIn_filter in H; tauto|].
  intros Hs; split; apply StronglySorted_filter; exact Hs.
Qed.

Lemma partitionPy_keeps_points_witness :
  sorted_by_y ladder5 /\
  sorted_by_y (fst (partitionPy (firstn 2 ladder5) (Point.mk 1 1) ladder5)) /\
  sorted_by_y (snd (partitionPy (firstn 2 ladder5) (Point.mk 1 1) ladder5)).
Proof.
  split; [exact ladder5_sorted_by_y|].
  apply (partitionPy_keeps_points (firstn 2 ladder5) (Point.mk 1 1) ladder5).
  exact ladder5_sorted_by_y.
Defined.

(** ** The combine step *)




(** ** The recursion called on its own *)







(** ** The depth of the recursion *)

Lemma closestRec_fuel_depth : forall fuel Px Py,
  (length Px <= 3 * 2 ^ fuel)%nat ->
  exists r, closestRec_fuel (S fuel) Px Py = Some r.
Proof.
  induction fuel as [|fuel IH]; intros Px Py Hf.
  - rewrite closestRec_fuel_base by (simpl in Hf; lia). eauto.
  - destruct (Nat.le_gt_cases (length Px) 3) as [Hn|Hn].
    + rewrite closestRec_fuel_base by exact Hn. eauto.
    + rewrite closestRec_fuel_step by exact Hn. cbv zeta.
      destruct (half_sizes Px Hn) as (H1 & H2 & _ & _).
      set (mid := (length Px / 2)%nat) in *.
      assert (Hm : (2 * mid <= length Px < 2 * mid + 2)%nat).
      { unfold mid. pose proof (Nat.div_mod_eq (length Px) 2) as E.
        pose proof (Nat.mod_upper_bound (length Px) 2 ltac:(lia)). lia. }
      rewrite Nat.pow_succ_r' in Hf.
      destruct (IH (firstn mid Px)
                  (filter (left_test (nth mid Px origin)) Py)) as [lb ->];
        [lia|].
      destruct (IH (skipn mid Px)
                  (filter (fun p => negb (left_test (nth mid Px origin) p))
                     Py)) as [rb ->]; [lia|].
      eauto.
Qed.

(** X11.  The recursion of [closestRec] is at most [log2 n + 1] calls
    deep on [n] points: that many levels already give its result. *)
Theorem closestRec_depth_logarithmic (Px Py : list Point) :
  exists r, closestRec_fuel (S (Nat.log2 (length Px))) Px Py = Some r /\
            closestRec Px Py = Some r.
Proof.
  destruct (closestRec_fuel_depth (Nat.log2 (length Px)) Px Py) as [r Hr].
  - destruct (Nat.eq_0_gt_0_cases (length Px)) as [E|Hpos].
    + rewrite E; simpl; lia.
    + pose proof (Nat.log2_spec (length Px) Hpos) as [_ H].
      rewrite Nat.pow_succ_r' in H. lia.
  - exists r; split; [exact Hr|].
    unfold closestRec.
    apply (closestRec_fuel_mono (S (Nat.log2 (length Px)))); [exact Hr|].
    apply le_n_S, Nat.log2_le_lin, Nat.le_0_l.
Qed.

(** ** The comparators of the driver *)

Lemma by_x_then_y_true p q :
  by_x_then_y p q = true <->
  Point.x p < Point.x q \/ (Point.x p = Point.x q /\ Point.y p < Point.y q).
Proof.
  unfold by_x_then_y.
  destruct (Reqb (Point.x p) (Point.x q)) eqn:E; simpl.
  - apply Reqb_true in E. rewrite Rltb_true. lra.
  - apply Reqb_false in E. rewrite Rltb_true. lra.
Qed.

Lemma by_y_then_x_true p q :
  by_y_then_x p q = true <->
  Point.y p < Point.y q \/ (Point.y p = Point.y q /\ Point.x p < Point.x q).
Proof.
  unfold by_y_then_x.
  destruct (Reqb (Point.y p) (Point.y q)) eqn:E; simpl.
  - apply Reqb_true in E. rewrite Rltb_true. lra.
  - apply Reqb_false in E. rewrite Rltb_true. lra.
Qed.

Lemma Point_eq_or_apart p q :
  p = q \/ Point.x p <> Point.x q \/ Point.y p <> Point.y q.
Proof.
  destruct p as [px py], q as [qx qy]; simpl.
  destruct (Req_dec_T px qx) as [->|Hx]; [|tauto].
  destruct (Req_dec_T py qy) as [->|Hy]; tauto.
Qed.

(** X12.  Each of the two comparators that [closestPair] hands to
    [std::sort] is a strict total order on points: no point is below
    itself, the comparator is asymmetric and transitive, and of two
    different points one is below the other.  So it is a strict weak
    ordering, as [std::sort] requires, under which only equal points are
    equivalent. *)
Theorem comparators_strict_total (p q r : Point) :
  (by_x_then_y p p = false /\
   (by_x_then_y p q = true -> by_x_then_y q p = false) /\
   (by_x_then_y p q = true -> by_x_then_y q r = true ->
    by_x_then_y p r = true) /\
   (by_x_then_y p q = true \/ p = q \/ by_x_then_y q p = true)) /\
  (by_y_then_x p p = false /\
   (by_y_then_x p q = true -> by_y_then_x q p = false) /\
   (by_y_then_x p q = true -> by_y_then_x q r = true ->
    by_y_then_x p r = true) /\
   (by_y_then_x p q = true \/ p = q \/ by_y_then_x q p = true)).
Proof.
  split.
  - split; [|split; [|split]].
    + destruct (by_x_then_y p p) eqn:E; auto.
      apply by_x_then_y_true in E. lra.
    + intros H. destruct (by_x_then_y q p) eqn:E; auto.
      apply by_x_then_y_true in H, E. lra.
    + rewrite !by_x_then_y_true. lra.
    + rewrite !by_x_then_y_true.
      destruct (Point_eq_or_apart p q) as [E|[E|E]]; [tauto| |]; lra.
  - split; [|split; [|split]].
    + destruct (by_y_then_x p p) eqn:E; auto.
      apply by_y_then_x_true in E. lra.
    + intros H. destruct (by_y_then_x q p) eqn:E; auto.
      apply by_y_then_x_true in H, E. lra.
    + rewrite !by_y_then_x_true. lra.
    + rewrite !by_y_then_x_true.
      destruct (Point_eq_or_apart p q) as [E|[E|E]]; [tauto| |]; lra.
Qed.

Lemma comparators_strict_total_witness :
  by_x_then_y (Point.mk 0 5) (Point.mk 1 1) = true /\
  by_x_then_y (Point.mk 1 1) (Point.mk 0 5) = false /\
  by_y_then_x (Point.mk 1 1) (Point.mk 0 5) = true /\
  by_y_then_x (Point.mk 0 5) (Point.mk 1 1) = false.
Proof.
  assert (H1 : by_x_then_y (Point.mk 0 5) (Point.mk 1 1) = true)
    by (apply by_x_then_y_true; simpl; lra).
  assert (H2 : by_y_then_x (Point.mk 1 1) (Point.mk 0 5) = true)
    by (apply by_y_then_x_true; simpl; lra).
  pose proof (comparators_strict_total (Point.mk 0 5) (Point.mk 1 1)
                (Point.mk 1 1)) as [(_ & Ha & _) _].
  pose proof (comparators_strict_total (Point.mk 1 1) (Point.mk 0 5)
                (Point.mk 1 1)) as [_ (_ & Hb & _)].
  auto.
Defined.

(** ** Reading the points and reporting the answer *)

Lemma half_SS n : (S (S n) / 2 = S (n / 2))%nat.
Proof.
  replace (S (S n)) with (n + 1 * 2)%nat by lia.
  rewrite Nat.div_add by lia. lia.
Qed.

Lemma read_pairs_spec : forall n nums out,
  (length nums <= n)%nat ->
  exists new, read_pairs nums out = out ++ new /\
    length new = (length nums / 2)%nat /\
    coordinates new = firstn (2 * (length nums / 2)) nums.
Proof.
  induction n as [|n IH]; intros nums out Hn.
  - destruct nums; simpl in Hn; [|lia].
    exists []; simpl; rewrite app_nil_r; auto.
  - destruct nums as [|vx [|vy rest]].
    + exists []; simpl; rewrite app_nil_r; auto.
    + exists []; simpl; rewrite app_nil_r; auto.
    + destruct (IH rest (out ++ [Point.mk vx vy])) as (new & E & Hl & Hc);
        [simpl in Hn; lia|].
      exists (Point.mk vx vy :: new).
      cbn [read_pairs length]. rewrite E, <- app_assoc, half_SS.
      split; [reflexivity|]. split; [rewrite Hl; reflexivity|].
      replace (2 * S (length rest / 2))%nat
        with (S (S (2 * (length rest / 2)))) by lia.
      cbn [firstn]. rewrite <- Hc. reflexivity.
Qed.

(** X13.  [readPoints] on a file that cannot be opened returns [false] and
    leaves [out] as it was.  Otherwise it returns [true] and appends to
    [out], in reading order, one point for every two numbers it could
    read: [k] numbers give [k / 2] points, the points' coordinates are the
    first [2 * (k / 2)] numbers, and a last number without a partner is
    dropped. *)
Theorem readPoints_spec (f : file) (out : list Point) :
  match f with
  | None => readPoints f out = (false, out)
  | Some nums =>
      exists new, readPoints f out = (true, out ++ new) /\
        length new = (length nums / 2)%nat /\
        coordinates new = firstn (2 * (length nums / 2)) nums
  end.
Proof.
  destruct f as [nums|]; [|reflexivity].
  destruct (read_pairs_spec (length nums) nums out (Nat.le_refl _))
    as (new & E & Hl & Hc).
  exists new; simpl; rewrite E; auto.
Qed.


